(** * The inline sequence journal of libjst

    A shallow embedding of [libjst/journal/inline_sequence_journal.hpp]:
    the class [inline_sequence_journal], its nested classes [record_impl]
    and [breakend_impl], and the properties of the journal that follow
    from the code.

    Modelling decisions.
    - A sequence iterator is an address, a [Z] counting symbols in one flat,
      immutable memory [mem : Z -> A]. A segment is a [std::ranges::subrange]
      of two such iterators; it is a view and owns no symbols.
    - A journal iterator is an index into the [std::vector] of records.
    - [size_type] is a 64-bit unsigned integer and [std::ptrdiff_t] a 64-bit
      signed one. Unsigned arithmetic and conversions wrap and are written
      with [cast_size] and [cast_ptrdiff]; signed arithmetic, which is
      undefined on overflow, and iterator differences are exact.
    - A function returns [None] where the C++ code has undefined behaviour
      because an iterator into the journal is dereferenced or used as a range
      bound while it is out of range. The code has no error path of its own. *)

From stdpp Require Import base option list list_numbers.
From Stdlib Require Import ZArith Lia Ascii.

Local Open Scope Z_scope.

(** ** Machine integers *)

(** Conversion to [size_type] (unsigned, 64 bit). *)
Definition cast_size (z : Z) : Z := z mod 2 ^ 64.

(** Conversion to [std::ptrdiff_t] (signed, 64 bit, two's complement). *)
Definition cast_ptrdiff (z : Z) : Z := (z + 2 ^ 63) mod 2 ^ 64 - 2 ^ 63.

(** ** Segments: [sequence_type], a subrange over some source memory *)

Record sequence_type := subrange { seq_begin : Z; seq_end : Z }.

(** [sequence_type{}]: both iterators value-initialised. *)
Definition empty_sequence : sequence_type := subrange 0 0.

(** [std::ranges::empty], [std::ranges::size], [std::ranges::ssize] and
    [std::ranges::distance] on subranges of random access iterators. *)
Definition seq_empty (s : sequence_type) : bool := seq_begin s =? seq_end s.
Definition seq_size (s : sequence_type) : Z := cast_size (seq_end s - seq_begin s).
Definition seq_ssize (s : sequence_type) : Z := cast_ptrdiff (seq_size s).
Definition distance (first last : Z) : Z := last - first.

(** Modelled from the spec: [libjst::to_breakpoint] and
    [libjst::breakpoint_slice] are declared outside this file. A breakpoint on
    a sequence is the pair [(lo, hi)] of offsets of a half-open interval, and
    [slice(S, bp)] is the zero-copy half-open view of S over that interval. *)
Definition to_breakpoint (segment : sequence_type) (from to : Z) : Z * Z :=
  (distance (seq_begin segment) from, distance (seq_begin segment) to).
Definition breakpoint_slice (segment : sequence_type) (bp : Z * Z) : sequence_type :=
  subrange (seq_begin segment + fst bp) (seq_begin segment + snd bp).

(** The symbols a segment spells in memory [mem]. *)
Definition spell {A} (mem : Z → A) (s : sequence_type) : list A :=
  mem <$> seqZ (seq_begin s) (seq_end s - seq_begin s).

(** ** [record_impl] *)

Record record_impl := mk_record { position : Z; sequence : sequence_type }.

(** [operator==] of [record_impl]. *)
Definition record_eqb (lhs rhs : record_impl) : bool :=
  (position lhs =? position rhs)
  && (seq_begin (sequence lhs) =? seq_begin (sequence rhs))
  && (seq_size (sequence lhs) =? seq_size (sequence rhs)).

(** [operator<=>] of [record_impl]: by position only. *)
Definition record_compare (lhs rhs : record_impl) : comparison :=
  position lhs ?= position rhs.

(** [journal_type], the [std::vector] of records. *)
Abbreviation journal_type := (list record_impl).

(** ** [breakend_impl] *)

Record breakend_impl := breakend { _journal_it : nat; _sequence_it : Z }.

Definition breakpoint_type : Type := breakend_impl * breakend_impl.

Definition base (b : breakend_impl) : nat * Z := (_journal_it b, _sequence_it b).

(** [operator integral_t]: the sum is computed in [size_type]. The journal
    is an argument because the conversion dereferences the journal iterator. *)
Definition to_size (j : journal_type) (b : breakend_impl) : option Z :=
  r ← j !! _journal_it b;
  Some (cast_size (position r + distance (seq_begin (sequence r)) (_sequence_it b))).

(** [static_cast<std::ptrdiff_t>(breakend)]. *)
Definition to_ptrdiff (j : journal_type) (b : breakend_impl) : option Z :=
  cast_ptrdiff <$> to_size j b.

(** [operator-] of [breakend_impl]. *)
Definition breakend_minus (j : journal_type) (lhs rhs : breakend_impl) : option Z :=
  l ← to_ptrdiff j lhs;
  r ← to_ptrdiff j rhs;
  Some (l - r).

(** The defaulted [operator<=>]: member-wise, in declaration order. *)
Definition breakend_compare (lhs rhs : breakend_impl) : comparison :=
  match Nat.compare (_journal_it lhs) (_journal_it rhs) with
  | Eq => _sequence_it lhs ?= _sequence_it rhs
  | c => c
  end.

(** The defaulted [operator==]. *)
Definition breakend_eqb (lhs rhs : breakend_impl) : bool :=
  Nat.eqb (_journal_it lhs) (_journal_it rhs) && (_sequence_it lhs =? _sequence_it rhs).

(** Modelled from the spec: [libjst::low_breakend], [libjst::high_breakend]
    and [libjst::breakend_span] are declared outside this file;
    [low_breakend(bp) → lo], [high_breakend(bp) → hi], [span = hi − lo]. *)
Definition low_breakend (bp : breakpoint_type) : breakend_impl := fst bp.
Definition high_breakend (bp : breakpoint_type) : breakend_impl := snd bp.
Definition breakend_span (j : journal_type) (bp : breakpoint_type) : option Z :=
  breakend_minus j (high_breakend bp) (low_breakend bp).

(** ** Member functions of [inline_sequence_journal] on the [_journal] member *)

Definition get_breakpoint_slice (segment : sequence_type) (from to : Z) : sequence_type :=
  breakpoint_slice segment (to_breakpoint segment from to).

Definition split_at (j : journal_type) (b : breakend_impl)
    : option (record_impl * record_impl) :=
  let '(journal_it, split_it) := base b in
  r ← j !! journal_it;
  let segment := sequence r in
  let record_prefix :=
    mk_record (position r) (get_breakpoint_slice segment (seq_begin segment) split_it) in
  let split_offset := distance (seq_begin segment) split_it in
  let record_suffix :=
    mk_record (cast_size (position r + split_offset))
              (get_breakpoint_slice segment split_it (seq_end segment)) in
  Some (record_prefix, record_suffix).

Definition force_overwrite_through (j : journal_type) (it : nat) (rec : record_impl)
    : option journal_type :=
  if decide (it < length j)%nat then Some (<[it := rec]> j) else None.

(** [std::vector::erase(first, last)] and the range [std::vector::insert],
    each with the iterator it returns. *)
Definition vector_erase (j : journal_type) (first last : nat) : option (journal_type * nat) :=
  if decide (first ≤ last ≤ length j)%nat
  then Some (take first j ++ drop last j, first) else None.

Definition vector_insert (j : journal_type) (pos : nat) (entries : list record_impl)
    : option (journal_type * nat) :=
  if decide (pos ≤ length j)%nat
  then Some (take pos j ++ entries ++ drop pos j, pos) else None.

Definition update_positions_of_remaining_entries
    (j : journal_type) (journal_it : nat) (offset : Z) : journal_type :=
  if offset =? 0 then j
  else take journal_it j
       ++ ((λ r, mk_record (cast_size (position r + offset)) (sequence r))
             <$> drop journal_it j).

(** The journal as [record_inline] leaves it before the positions are
    rewritten, with [first_inserted], [marked_insert_entries] and the offset
    [insertion_size - deletion_size]. *)
Definition record_splice (j : journal_type) (bp : breakpoint_type)
    (new_sequence : sequence_type) : option (journal_type * nat * nat * Z) :=
  deletion_size ← breakend_span j bp;
  let insertion_size := seq_ssize new_sequence in
  '(low_prefix, low_suffix) ← split_at j (low_breakend bp);
  '(high_prefix, high_suffix) ← split_at j (high_breakend bp);
  let entries_marked_for_insertion :=
    (if negb (seq_empty (sequence low_prefix)) then [low_prefix] else [])
    ++ (if 0 <? insertion_size
        then [mk_record (position low_suffix) new_sequence] else []) in
  let marked_insert_entries := length entries_marked_for_insertion in
  let from_journal_it := fst (base (low_breakend bp)) in
  let to_journal_it := fst (base (high_breakend bp)) in
  j1 ← force_overwrite_through j to_journal_it high_suffix;
  '(j2, insert_position) ← vector_erase j1 from_journal_it to_journal_it;
  '(j3, first_inserted) ← vector_insert j2 insert_position entries_marked_for_insertion;
  Some (j3, first_inserted, marked_insert_entries, insertion_size - deletion_size).

Definition record_inline (j : journal_type) (bp : breakpoint_type)
    (new_sequence : sequence_type) : option (journal_type * nat) :=
  '(j3, first_inserted, marked_insert_entries, offset) ← record_splice j bp new_sequence;
  let j4 := update_positions_of_remaining_entries
              j3 (first_inserted + marked_insert_entries) offset in
  let inserted := if 0 <? seq_ssize new_sequence then 1%nat else 0%nat in
  Some (j4, (first_inserted + (marked_insert_entries - inserted))%nat).

Fixpoint check_adjacent (j : journal_type) : bool :=
  match j with
  | record :: ((next_record :: _) as rest) =>
      (cast_size (position record + seq_size (sequence record)) =? position next_record)
      && check_adjacent rest
  | _ => true
  end.

Definition check_journal_invariants (j : journal_type) : bool :=
  match j with
  | [] => false
  | first :: _ => (position first =? 0) && check_adjacent j
  end.

Definition initialize_journal (source : sequence_type) (j : journal_type) : journal_type :=
  let j :=
    if negb (seq_empty source)
    then j ++ [mk_record 0 (breakpoint_slice source
                              (to_breakpoint source (seq_begin source) (seq_end source)))]
    else j in
  j ++ [mk_record (seq_size source) empty_sequence].

(** ** The class [inline_sequence_journal] and its public member functions *)

Record inline_sequence_journal :=
  mk_journal { _source : sequence_type; _journal : journal_type }.

Module Journal.

(** The constructor from a source: [_journal{}], then [initialize_journal()]. *)
Definition new (source : sequence_type) : inline_sequence_journal :=
  mk_journal source (initialize_journal source []).

Definition begin (J : inline_sequence_journal) : nat := 0%nat.

(** [_journal.end() - 1]. *)
Definition end_ (J : inline_sequence_journal) : nat := (length (_journal J) - 1)%nat.

(** [_journal.size() - 1], in [size_type]. *)
Definition size (J : inline_sequence_journal) : Z :=
  cast_size (Z.of_nat (length (_journal J)) - 1).

Definition empty (J : inline_sequence_journal) : bool := size J =? 0.

Definition record (J : inline_sequence_journal) (bp : breakpoint_type)
    (sequence : sequence_type) : option (inline_sequence_journal * nat) :=
  '(j, it) ← record_inline (_journal J) bp sequence;
  Some (mk_journal (_source J) j, it).

(** [std::ranges::find] over a list with the projection
    [&record_impl::position]: the offset of the first record whose position
    equals [key], the length of the list when there is none. *)
Fixpoint ranges_find (l : list record_impl) (key : Z) : nat :=
  match l with
  | [] => 0%nat
  | r :: l' => if position r =? key then 0%nat else S (ranges_find l' key)
  end.

(** The arguments the member [find] can pass to [std::ranges::find] after
    [begin(), end(), key]. *)
Inductive find_argument := less_comparator | position_projection.

(** The outcome of overload resolution for a call: the result of the viable
    overload, or no viable overload, in which case the call is ill-formed and
    the member that makes it cannot be instantiated. *)
Inductive resolved (T : Type) : Type :=
| viable (result : T)
| no_viable_overload.
Arguments viable {T} result.
Arguments no_viable_overload {T}.

(** [std::ranges::find(first, last, value, args...)]. The algorithm is
    declared as [find(first, last, value, proj = {})]: after the value it
    takes a projection and nothing more, and it compares the projected
    elements to the value with [==]. With [&record_impl::position] alone the
    call is viable and is [ranges_find]. With no projection a record would be
    compared to a key, with the comparator alone it would be invoked as a
    projection on one record, and with two arguments after the value no
    overload has enough parameters: none of these calls is viable. *)
Definition ranges_find_call (l : list record_impl) (key : Z)
    (args : list find_argument) : resolved nat :=
  match args with
  | [position_projection] => viable (ranges_find l key)
  | _ => no_viable_overload
  end.

(** [find(key)] as written: [std::ranges::find(begin(), end(), key,
    std::ranges::less{}, &record_impl::position)]. *)
Definition find (J : inline_sequence_journal) (key : Z) : resolved nat :=
  match ranges_find_call (take (end_ J - begin J) (drop (begin J) (_journal J))) key
          [less_comparator; position_projection] with
  | viable i => viable (begin J + i)%nat
  | no_viable_overload => no_viable_overload
  end.

(** Not the member: the call of [find(key)] with the argument
    [std::ranges::less{}] left out, [std::ranges::find(begin(), end(), key,
    &record_impl::position)]. *)
Definition find_without_comparator (J : inline_sequence_journal) (key : Z) : nat :=
  (begin J + ranges_find (take (end_ J - begin J) (drop (begin J) (_journal J))) key)%nat.

(** [clear()]: [_journal.clear()], then [initialize_journal()]. *)
Definition clear (J : inline_sequence_journal) : inline_sequence_journal :=
  mk_journal (_source J) (initialize_journal (_source J) []).

(** The loop of [std::ranges::lower_bound] and [std::ranges::upper_bound]
    over the records [first, first + len) with the projection
    [&record_impl::position]: [half = len / 2], [middle = first + half]; when
    [left] holds of the middle record the search goes on in
    [[first, middle)], else in [[middle + 1, first + len)]. [fuel] bounds the
    iterations of [while (len > 0)]; [len] is at least halved in each, so
    [fuel = len] is enough. The middle record is always in range when
    [first + len] is at most the size of the vector. *)
Fixpoint bound_search (left : record_impl → bool) (j : journal_type)
    (fuel first len : nat) : nat :=
  match fuel with
  | O => first
  | S fuel' =>
      if (len =? 0)%nat then first
      else
        let half := (len / 2)%nat in
        let middle := (first + half)%nat in
        match j !! middle with
        | Some r =>
            if left r then bound_search left j fuel' first half
            else bound_search left j fuel' (S middle) (len - half - 1)
        | None => first
        end
  end.

(** [lower_bound(key)]: the search goes right while
    [std::ranges::less{}(position, key)]. *)
Definition lower_bound (J : inline_sequence_journal) (key : Z) : nat :=
  bound_search (λ r, negb (position r <? key)) (_journal J)
    (end_ J - begin J) (begin J) (end_ J - begin J).

(** [upper_bound(key)]: the search goes left when
    [std::ranges::less{}(key, position)]. *)
Definition upper_bound (J : inline_sequence_journal) (key : Z) : nat :=
  bound_search (λ r, key <? position r) (_journal J)
    (end_ J - begin J) (begin J) (end_ J - begin J).

End Journal.

(** ** The derived sequence *)

(** The symbols spelled by a list of records, in order. *)
Definition spelled {A} (mem : Z → A) (l : list record_impl) : list A :=
  concat ((λ r, spell mem (sequence r)) <$> l).

(** The derived sequence: the segments of the range [[begin(), end())]. *)
Definition derived {A} (mem : Z → A) (J : inline_sequence_journal) : list A :=
  spelled mem (take (Journal.end_ J - Journal.begin J)
                 (drop (Journal.begin J) (_journal J))).

(** The edit of the spec on a plain sequence: replace the interval
    [[lo, hi)] of [D] by [alt]. *)
Definition apply_edit {A} (D : list A) (lo hi : Z) (alt : list A) : list A :=
  take (Z.to_nat lo) D ++ alt ++ drop (Z.to_nat hi) D.

(** ** A concrete memory *)

Definition place (base : Z) (l : list ascii) (rest : Z → ascii) : Z → ascii :=
  λ a, if decide (base ≤ a < base + Z.of_nat (length l))
       then default " "%char (l !! Z.to_nat (a - base))
       else rest a.

(** "ACGT" at address 100, "XY" at 200 and a second "CG" at 300. *)
Definition mem_ex : Z → ascii :=
  place 100 ["A"; "C"; "G"; "T"]%char
    (place 200 ["X"; "Y"]%char
       (place 300 ["C"; "G"]%char (λ _, " "%char))).

Definition src_acgt : sequence_type := subrange 100 104.
Definition J_acgt : inline_sequence_journal := Journal.new src_acgt.

(** ** Preconditions of the member functions *)

(** The length of the derived sequence as the sentinel stores it. *)
Definition sentinel_position (j : journal_type) : Z :=
  default 0 (position <$> last j).

(** A source is a range of memory whose size fits [std::ptrdiff_t]. *)
Definition valid_source (source : sequence_type) : bool :=
  (seq_begin source <=? seq_end source)
  && (seq_end source - seq_begin source <? 2 ^ 63).

(** A breakend is valid in a journal when its journal iterator can be
    dereferenced (the sentinel included) and its sequence iterator lies in
    the closed range of that record's segment, as [split_at] requires. *)
Definition valid_breakend (j : journal_type) (b : breakend_impl) : bool :=
  match j !! _journal_it b with
  | Some r => (seq_begin (sequence r) <=? _sequence_it b)
              && (_sequence_it b <=? seq_end (sequence r))
  | None => false
  end.

(** A breakpoint is valid when both breakends are and the low one does not
    come after the high one. *)
Definition valid_breakpoint (j : journal_type) (bp : breakpoint_type) : bool :=
  valid_breakend j (low_breakend bp)
  && valid_breakend j (high_breakend bp)
  && match breakend_compare (low_breakend bp) (high_breakend bp) with
     | Gt => false
     | _ => true
     end.

(** A valid call of [record]: a valid breakpoint, a well-formed new sequence
    and a result whose length still fits [std::ptrdiff_t]. *)
Definition valid_record_call (j : journal_type) (bp : breakpoint_type)
    (alt : sequence_type) : bool :=
  valid_breakpoint j bp
  && (seq_begin alt <=? seq_end alt)
  && (sentinel_position j + (seq_end alt - seq_begin alt) <? 2 ^ 63).

(** The high breakend is normalised: it does not sit at the end of the
    segment of a record that has a successor. *)
Definition normal_high_breakend (j : journal_type) (bp : breakpoint_type) : bool :=
  match j !! _journal_it (high_breakend bp) with
  | Some r => (_sequence_it (high_breakend bp) <? seq_end (sequence r))
              || (S (_journal_it (high_breakend bp)) =? length j)%nat
  | None => false
  end.

Definition normal_record_call (j : journal_type) (bp : breakpoint_type)
    (alt : sequence_type) : bool :=
  valid_record_call j bp alt && normal_high_breakend j bp.

(** ** Reachable journals *)

(** [run_with ok mem S J D]: the journal [J] is reached from [new(S)] by
    calls of [record] that satisfy [ok], and [D] is the sequence obtained by
    applying the same edits to the symbols of [S]. *)
Inductive run_with {A} (ok : journal_type → breakpoint_type → sequence_type → bool)
    (mem : Z → A) (S : sequence_type) : inline_sequence_journal → list A → Prop :=
| run_new : run_with ok mem S (Journal.new S) (spell mem S)
| run_record J D bp alt J' it lo hi :
    run_with ok mem S J D →
    ok (_journal J) bp alt = true →
    to_ptrdiff (_journal J) (low_breakend bp) = Some lo →
    to_ptrdiff (_journal J) (high_breakend bp) = Some hi →
    Journal.record J bp alt = Some (J', it) →
    run_with ok mem S J' (apply_edit D lo hi (spell mem alt)).

Definition run {A} := @run_with A valid_record_call.
Definition run_normal {A} := @run_with A normal_record_call.

(** ** The invariant of the journal *)

(** [chain p l q]: the records of [l] have well-formed segments and tile the
    interval from [p] to [q] of the derived sequence. *)
Inductive chain : Z → list record_impl → Z → Prop :=
| chain_nil p : chain p [] p
| chain_cons p r l q :
    position r = p →
    seq_begin (sequence r) ≤ seq_end (sequence r) →
    chain (p + (seq_end (sequence r) - seq_begin (sequence r))) l q →
    chain p (r :: l) q.

(** The journal ends with an empty record. *)
Definition ends_with_sentinel (j : journal_type) : Prop :=
  ∃ body s, j = body ++ [s] ∧ seq_begin (sequence s) = seq_end (sequence s).

Definition journal_invariant (j : journal_type) : Prop :=
  ∃ q, chain 0 j q ∧ ends_with_sentinel j ∧ q < 2 ^ 63.

(** Every record but the last has a non-empty segment. *)
Definition no_empty_segment (j : journal_type) : Prop :=
  ∀ i r, j !! i = Some r → (S i < length j)%nat →
         seq_begin (sequence r) < seq_end (sequence r).

(** Two adjacent records with empty segments. *)
Definition adjacent_empty (j : journal_type) : Prop :=
  ∃ i r next, j !! i = Some r ∧ j !! S i = Some next
              ∧ seq_empty (sequence r) = true ∧ seq_empty (sequence next) = true.

(** The entry containing [key] in the words of the spec: the last entry of
    [[begin(), end())] whose position is at most [key]. *)
Fixpoint last_not_after (l : list record_impl) (key : Z) (i : nat) : option nat :=
  match l with
  | [] => None
  | r :: l' =>
      match last_not_after l' key (S i) with
      | Some k => Some k
      | None => if position r <=? key then Some i else None
      end
  end.

Definition containing_entry (J : inline_sequence_journal) (key : Z) : option nat :=
  last_not_after (take (Journal.end_ J) (_journal J)) key 0.

(** The journal of an empty source. *)
Definition src_none : sequence_type := subrange 50 50.

(** ** Concrete journals *)

(** The substitution of "CG" by "XY" in "ACGT". *)
Definition bp_sub : breakpoint_type := (breakend 0 101, breakend 0 103).
Definition alt_xy : sequence_type := subrange 200 202.
Definition J_sub : inline_sequence_journal :=
  mk_journal src_acgt
    [mk_record 0 (subrange 100 101); mk_record 1 alt_xy;
     mk_record 3 (subrange 103 104); mk_record 4 empty_sequence].

(** Two breakends of [J_sub] at the linear offset 1: the end of the first
    record and the begin of the second. *)
Definition b_end_of_first : breakend_impl := breakend 0 101.
Definition b_begin_of_second : breakend_impl := breakend 1 200.

(** The inverse of the substitution [bp_sub]: the interval of [J_sub] that
    holds "XY", from the begin of its record to the begin of the next one,
    and the symbols "CG" of the source it replaced. *)
Definition bp_undo : breakpoint_type := (breakend 1 200, breakend 2 103).
Definition alt_cg : sequence_type := subrange 101 103.

(** The journal after the substitution [bp_sub] and its inverse. *)
Definition J_undone : inline_sequence_journal :=
  mk_journal src_acgt
    [mk_record 0 (subrange 100 101); mk_record 1 (subrange 101 103);
     mk_record 3 (subrange 103 104); mk_record 4 empty_sequence].

(** Two records at position 1 that spell "CG", one in the source and one
    in the copy at address 300. *)
Definition r_cg_source : record_impl := mk_record 1 (subrange 101 103).
Definition r_cg_copy : record_impl := mk_record 1 (subrange 300 302).

(** The one symbol "X". *)
Definition alt_x : sequence_type := subrange 200 201.

(** The deletion of "GT" in "ACGT", its high breakend at the end of the
    segment. *)
Definition bp_del : breakpoint_type := (breakend 0 102, breakend 0 104).
Definition J_del : inline_sequence_journal :=
  mk_journal src_acgt
    [mk_record 0 (subrange 100 102); mk_record 2 (subrange 104 104);
     mk_record 2 empty_sequence].

(** The edit of no symbols by no symbols in the middle of "ACGT". *)
Definition bp_nop : breakpoint_type := (breakend 0 102, breakend 0 102).
Definition J_nop : inline_sequence_journal :=
  mk_journal src_acgt
    [mk_record 0 (subrange 100 102); mk_record 2 (subrange 102 104);
     mk_record 4 empty_sequence].

(** ** The scenarios of the test suite, on the journal of "ACGT" *)

(** The derived sequence after one call of [record] on the journal of
    "ACGT". *)
Definition after_record (bp : breakpoint_type) (alt : sequence_type)
    : option (list ascii) :=
  (λ r, derived mem_ex r.1) <$> Journal.record J_acgt bp alt.

(** Every position is a value of [size_type]. *)
Definition positions_in_size_type (j : journal_type) : bool :=
  forallb (λ r, (0 <=? position r) && (position r <? 2 ^ 64)) j.

(** The insertion of "XY" in the middle of "ACGT" and the deletion that
    undoes it. *)
Definition bp_ins : breakpoint_type := (breakend 0 102, breakend 0 102).
Definition J_ins : inline_sequence_journal :=
  mk_journal src_acgt
    [mk_record 0 (subrange 100 102); mk_record 2 alt_xy;
     mk_record 4 (subrange 102 104); mk_record 6 empty_sequence].
Definition bp_ins_undo : breakpoint_type := (breakend 1 200, breakend 2 102).

(** ** The result of [record_inline] in closed form *)

(** The linear offset of the symbol [it] of record [r]. *)
Definition linear_offset (r : record_impl) (it : Z) : Z :=
  position r + (it - seq_begin (sequence r)).

(** Adding [o] to every position. *)
Definition shift (o : Z) (r : record_impl) : record_impl :=
  mk_record (position r + o) (sequence r).

(** The entries marked for insertion: the prefix of the low record up to
    the low breakend unless it is empty, then the new sequence unless it is
    empty. *)
Definition marked_entries (ra : record_impl) (sl : Z) (alt : sequence_type)
    : list record_impl :=
  (if decide (seq_begin (sequence ra) = sl) then []
   else [mk_record (position ra) (subrange (seq_begin (sequence ra)) sl)])
  ++ (if decide (seq_begin alt = seq_end alt) then []
      else [mk_record (linear_offset ra sl) alt]).

(** The suffix of the high record from the high breakend on. *)
Definition high_suffix_of (rb : record_impl) (sh : Z) : record_impl :=
  mk_record (linear_offset rb sh) (subrange sh (seq_end (sequence rb))).

(** The journal after the splice, where [ra] and [rb] are the records of
    the low and of the high breakend. *)
Definition spliced (j : journal_type) (bp : breakpoint_type) (alt : sequence_type)
    (ra rb : record_impl) : journal_type :=
  take (_journal_it (low_breakend bp)) j
  ++ marked_entries ra (_sequence_it (low_breakend bp)) alt
  ++ high_suffix_of rb (_sequence_it (high_breakend bp))
     :: drop (S (_journal_it (high_breakend bp))) j.

(** [insertion_size - deletion_size] at valid breakends. *)
Definition edit_offset (bp : breakpoint_type) (alt : sequence_type)
    (ra rb : record_impl) : Z :=
  (seq_end alt - seq_begin alt)
  - (linear_offset rb (_sequence_it (high_breakend bp))
     - linear_offset ra (_sequence_it (low_breakend bp))).

(** The journal after the positions are rewritten. *)
Definition recorded (j : journal_type) (bp : breakpoint_type) (alt : sequence_type)
    (ra rb : record_impl) : journal_type :=
  take (_journal_it (low_breakend bp)) j
  ++ marked_entries ra (_sequence_it (low_breakend bp)) alt
  ++ (shift (edit_offset bp alt ra rb)
        <$> (high_suffix_of rb (_sequence_it (high_breakend bp))
             :: drop (S (_journal_it (high_breakend bp))) j)).

(** The facts a valid call of [record] rests on: the journal tiles
    [[0, q)], [ra] and [rb] are the records of the two breakends, the breakends
    lie in their segments in order, and the result fits [std::ptrdiff_t]. *)
Record call_at (j : journal_type) (q : Z) (bp : breakpoint_type)
    (alt : sequence_type) (ra rb : record_impl) : Prop := {
  at_chain : chain 0 j q;
  at_bound : q + (seq_end alt - seq_begin alt) < 2 ^ 63;
  at_low : j !! _journal_it (low_breakend bp) = Some ra;
  at_high : j !! _journal_it (high_breakend bp) = Some rb;
  at_low_range :
    seq_begin (sequence ra) ≤ _sequence_it (low_breakend bp) ≤ seq_end (sequence ra);
  at_high_range :
    seq_begin (sequence rb) ≤ _sequence_it (high_breakend bp) ≤ seq_end (sequence rb);
  at_order :
    (_journal_it (low_breakend bp) < _journal_it (high_breakend bp))%nat
    ∨ (_journal_it (low_breakend bp) = _journal_it (high_breakend bp)
       ∧ _sequence_it (low_breakend bp) ≤ _sequence_it (high_breakend bp));
  at_alt : seq_begin alt ≤ seq_end alt
}.

(* ================================================================== *)
(** * Proofs *)

(** ** Casts *)

Lemma cast_size_small z : 0 ≤ z < 2 ^ 64 → cast_size z = z.
Proof. intros H. unfold cast_size. by apply Z.mod_small. Qed.

Lemma cast_ptrdiff_small z : - 2 ^ 63 ≤ z < 2 ^ 63 → cast_ptrdiff z = z.
Proof. intros H. unfold cast_ptrdiff. rewrite Z.mod_small; lia. Qed.

Lemma seq_size_small s :
  seq_begin s ≤ seq_end s → seq_end s - seq_begin s < 2 ^ 63 →
  seq_size s = seq_end s - seq_begin s.
Proof. intros. unfold seq_size. apply cast_size_small. lia. Qed.

Lemma seq_ssize_small s :
  seq_begin s ≤ seq_end s → seq_end s - seq_begin s < 2 ^ 63 →
  seq_ssize s = seq_end s - seq_begin s.
Proof.
  intros. unfold seq_ssize. rewrite seq_size_small by done.
  apply cast_ptrdiff_small. lia.
Qed.

Lemma get_breakpoint_slice_range segment from to :
  get_breakpoint_slice segment from to = subrange from to.
Proof.
  unfold get_breakpoint_slice, breakpoint_slice, to_breakpoint, distance. simpl.
  f_equal; lia.
Qed.

(** ** Spelling *)

Lemma spell_empty {A} (mem : Z → A) s : seq_end s ≤ seq_begin s → spell mem s = [].
Proof. intros. unfold spell. rewrite seqZ_nil; [done | lia]. Qed.

Lemma spell_split {A} (mem : Z → A) b m e :
  b ≤ m ≤ e → spell mem (subrange b e) = spell mem (subrange b m) ++ spell mem (subrange m e).
Proof.
  intros H. unfold spell. simpl.
  replace (e - b) with ((m - b) + (e - m)) by lia.
  rewrite seqZ_app by lia. rewrite fmap_app. do 3 f_equal; lia.
Qed.

Lemma length_spell {A} (mem : Z → A) s :
  seq_begin s ≤ seq_end s → Z.of_nat (length (spell mem s)) = seq_end s - seq_begin s.
Proof. intros. unfold spell. rewrite length_fmap, length_seqZ. lia. Qed.

Lemma spelled_app {A} (mem : Z → A) l1 l2 :
  spelled mem (l1 ++ l2) = spelled mem l1 ++ spelled mem l2.
Proof. unfold spelled. by rewrite fmap_app, concat_app. Qed.

Lemma spelled_cons {A} (mem : Z → A) r l :
  spelled mem (r :: l) = spell mem (sequence r) ++ spelled mem l.
Proof. done. Qed.

Lemma spelled_nil {A} (mem : Z → A) : spelled mem [] = [].
Proof. done. Qed.

(** ** Chains of records *)

Lemma chain_app p l1 l2 q :
  chain p (l1 ++ l2) q ↔ ∃ m, chain p l1 m ∧ chain m l2 q.
Proof.
  revert p. induction l1 as [|r l1 IH]; intros p; simpl.
  - split.
    + intros H. exists p. split; [constructor | done].
    + intros (m & H1 & H2). by inversion H1; subst.
  - split.
    + intros H. inversion H as [|? ? ? ? Hp Hs Hc]; subst.
      apply IH in Hc as (m & H1 & H2). exists m. split; [by constructor | done].
    + intros (m & H1 & H2). inversion H1 as [|? ? ? ? Hp Hs Hc]; subst.
      constructor; [done | done |]. apply IH; eauto.
Qed.

Lemma chain_le p l q : chain p l q → p ≤ q.
Proof. induction 1; lia. Qed.

Lemma chain_functional p l q q' : chain p l q → chain p l q' → q = q'.
Proof.
  intros H. revert q'. induction H; intros q' H'; inversion H'; subst; auto.
Qed.

(** A record of a chain splits it at the record's position. *)
Lemma chain_lookup p j q i r :
  chain p j q → j !! i = Some r →
  chain p (take i j) (position r)
  ∧ seq_begin (sequence r) ≤ seq_end (sequence r)
  ∧ chain (position r + (seq_end (sequence r) - seq_begin (sequence r))) (drop (S i) j) q.
Proof.
  intros Hc Hi.
  rewrite <- (take_drop_middle j i r Hi) in Hc.
  apply chain_app in Hc as (m & H1 & H2).
  inversion H2; subst. auto.
Qed.

Lemma chain_lookup_bounds p j q i r :
  chain p j q → j !! i = Some r →
  p ≤ position r ∧ position r + (seq_end (sequence r) - seq_begin (sequence r)) ≤ q.
Proof.
  intros Hc Hi. destruct (chain_lookup _ _ _ _ _ Hc Hi) as (H1 & H2 & H3).
  apply chain_le in H1, H3. lia.
Qed.

(** Records of a chain are ordered by position. *)
Lemma chain_lookup_lt p j q i1 i2 r1 r2 :
  chain p j q → j !! i1 = Some r1 → j !! i2 = Some r2 → (i1 < i2)%nat →
  position r1 + (seq_end (sequence r1) - seq_begin (sequence r1)) ≤ position r2.
Proof.
  intros Hc H1 H2 Hlt.
  destruct (chain_lookup _ _ _ _ _ Hc H1) as (_ & _ & Hd).
  assert (drop (S i1) j !! (i2 - S i1)%nat = Some r2) as Hl.
  { rewrite lookup_drop. rewrite <- H2. f_equal. lia. }
  destruct (chain_lookup_bounds _ _ _ _ _ Hd Hl). lia.
Qed.

Lemma chain_adjacent p j q i r next :
  chain p j q → j !! i = Some r → j !! S i = Some next →
  position next = position r + (seq_end (sequence r) - seq_begin (sequence r)).
Proof.
  intros Hc H1 H2.
  destruct (chain_lookup _ _ _ _ _ Hc H1) as (_ & _ & Hd).
  assert (drop (S i) j !! 0%nat = Some next) as Hl.
  { rewrite lookup_drop. rewrite <- H2. f_equal. lia. }
  destruct (drop (S i) j) as [|x l]; [done |].
  simpl in Hl. injection Hl as ->. by inversion Hd.
Qed.

(** The symbols of a chain are as many as the interval it tiles. *)
Lemma chain_length {A} (mem : Z → A) p l q :
  chain p l q → Z.of_nat (length (spelled mem l)) = q - p.
Proof.
  induction 1 as [|p r l q Hp Hs Hc IH]; [simpl; lia |].
  rewrite spelled_cons, length_app, Nat2Z.inj_add, IH, length_spell by done. lia.
Qed.

Lemma chain_shift o p l q : chain p l q → chain (p + o) (shift o <$> l) (q + o).
Proof.
  induction 1 as [|p r l q Hp Hs Hc IH]; [constructor |].
  rewrite fmap_cons. constructor; simpl; [lia | done |].
  replace (p + o + (seq_end (sequence r) - seq_begin (sequence r)))
    with (p + (seq_end (sequence r) - seq_begin (sequence r)) + o) by lia.
  done.
Qed.

Lemma spelled_shift {A} (mem : Z → A) o l : spelled mem (shift o <$> l) = spelled mem l.
Proof. unfold spelled. rewrite <- list_fmap_compose. done. Qed.

(** In range, the rewriting of the positions is the exact shift. *)
Lemma update_positions_shift j it o p l q :
  drop it j = l → chain p l q → 0 ≤ p → 0 ≤ p + o → q + o < 2 ^ 64 →
  update_positions_of_remaining_entries j it o = take it j ++ (shift o <$> l).
Proof.
  intros Hd Hc Hp Hpo Hq. unfold update_positions_of_remaining_entries.
  destruct (Z.eqb_spec o 0) as [-> | Hne].
  - rewrite <- (take_drop it j) at 1. rewrite Hd. f_equal.
    rewrite <- (list_fmap_id l) at 1. apply list_fmap_ext.
    intros i [x s] _. unfold shift. simpl. f_equal. lia.
  - rewrite Hd. f_equal. apply list_fmap_ext. intros i r Hi.
    destruct (chain_lookup_bounds _ _ _ _ _ Hc Hi) as [H1 H2].
    destruct (chain_lookup _ _ _ _ _ Hc Hi) as (_ & H3 & _).
    unfold shift. f_equal. apply cast_size_small. lia.
Qed.

(** ** Breakends of a well-formed journal *)

Lemma valid_breakend_inv j b :
  valid_breakend j b = true →
  ∃ r, j !! _journal_it b = Some r
       ∧ seq_begin (sequence r) ≤ _sequence_it b ≤ seq_end (sequence r).
Proof.
  unfold valid_breakend. destruct (j !! _journal_it b) as [r|]; [|done].
  intros H. apply andb_true_iff in H as [H1 H2]. exists r. split; [done | lia].
Qed.

Lemma valid_breakpoint_inv j bp :
  valid_breakpoint j bp = true →
  ∃ ra rb,
    j !! _journal_it (low_breakend bp) = Some ra
    ∧ j !! _journal_it (high_breakend bp) = Some rb
    ∧ seq_begin (sequence ra) ≤ _sequence_it (low_breakend bp) ≤ seq_end (sequence ra)
    ∧ seq_begin (sequence rb) ≤ _sequence_it (high_breakend bp) ≤ seq_end (sequence rb)
    ∧ ((_journal_it (low_breakend bp) < _journal_it (high_breakend bp))%nat
       ∨ (_journal_it (low_breakend bp) = _journal_it (high_breakend bp)
          ∧ _sequence_it (low_breakend bp) ≤ _sequence_it (high_breakend bp))).
Proof.
  unfold valid_breakpoint. intros H.
  apply andb_true_iff in H as [H Hc]. apply andb_true_iff in H as [Hl Hh].
  apply valid_breakend_inv in Hl as (ra & Ha & Hla).
  apply valid_breakend_inv in Hh as (rb & Hb & Hhb).
  exists ra, rb. do 4 (split; [done |]).
  unfold breakend_compare in Hc.
  destruct (Nat.compare_spec (_journal_it (low_breakend bp)) (_journal_it (high_breakend bp)))
    as [Heq | Hlt | Hgt]; [| by left | done].
  right. split; [done |].
  destruct (Z.compare_spec (_sequence_it (low_breakend bp)) (_sequence_it (high_breakend bp)));
    [lia | lia | done].
Qed.

(** The conversion of a valid breakend is its linear offset, unwrapped. *)
Lemma to_ptrdiff_valid j q b r :
  chain 0 j q → q < 2 ^ 63 →
  j !! _journal_it b = Some r →
  seq_begin (sequence r) ≤ _sequence_it b ≤ seq_end (sequence r) →
  to_ptrdiff j b = Some (position r + (_sequence_it b - seq_begin (sequence r))).
Proof.
  intros Hc Hq Hr Hb. unfold to_ptrdiff, to_size, distance. rewrite Hr. simpl.
  destruct (chain_lookup_bounds _ _ _ _ _ Hc Hr).
  rewrite cast_size_small, cast_ptrdiff_small by lia. done.
Qed.

(** Linear offsets follow the order of valid breakpoints. *)
Lemma breakpoint_offsets_le j q (a b : nat) ra rb sl sh :
  chain 0 j q → j !! a = Some ra → j !! b = Some rb →
  seq_begin (sequence ra) ≤ sl ≤ seq_end (sequence ra) →
  seq_begin (sequence rb) ≤ sh ≤ seq_end (sequence rb) →
  ((a < b)%nat ∨ (a = b ∧ sl ≤ sh)) →
  position ra + (sl - seq_begin (sequence ra)) ≤ position rb + (sh - seq_begin (sequence rb)).
Proof.
  intros Hc Ha Hb Hla Hhb [Hlt | [-> Hle]].
  - pose proof (chain_lookup_lt _ _ _ _ _ _ _ Hc Ha Hb Hlt). lia.
  - rewrite Ha in Hb. injection Hb as ->. lia.
Qed.

Lemma sentinel_position_chain j q :
  chain 0 j q → ends_with_sentinel j → sentinel_position j = q.
Proof.
  intros Hc (body & s & -> & Hs). unfold sentinel_position.
  rewrite last_snoc. simpl.
  apply chain_app in Hc as (m & H1 & H2).
  inversion H2 as [|? ? ? ? Hp Hv Hn]; subst. inversion Hn; subst. lia.
Qed.

(** ** The splice of [record_inline] *)

Lemma record_splice_valid j q bp alt ra rb :
  chain 0 j q → q < 2 ^ 63 →
  j !! _journal_it (low_breakend bp) = Some ra →
  j !! _journal_it (high_breakend bp) = Some rb →
  seq_begin (sequence ra) ≤ _sequence_it (low_breakend bp) ≤ seq_end (sequence ra) →
  seq_begin (sequence rb) ≤ _sequence_it (high_breakend bp) ≤ seq_end (sequence rb) →
  (_journal_it (low_breakend bp) ≤ _journal_it (high_breakend bp))%nat →
  seq_begin alt ≤ seq_end alt → seq_end alt - seq_begin alt < 2 ^ 63 →
  record_splice j bp alt
  = Some (spliced j bp alt ra rb,
          _journal_it (low_breakend bp),
          length (marked_entries ra (_sequence_it (low_breakend bp)) alt),
          edit_offset bp alt ra rb).
Proof.
  intros Hc Hq Ha Hb Hla Hhb Hab Halt Hlen.
  pose proof (lookup_lt_Some _ _ _ Ha) as Hal.
  pose proof (lookup_lt_Some _ _ _ Hb) as Hbl.
  destruct (chain_lookup_bounds _ _ _ _ _ Hc Ha).
  destruct (chain_lookup_bounds _ _ _ _ _ Hc Hb).
  unfold record_splice, breakend_span, breakend_minus.
  rewrite (to_ptrdiff_valid j q (high_breakend bp) rb),
    (to_ptrdiff_valid j q (low_breakend bp) ra) by done. simpl.
  unfold split_at, base. rewrite Ha, Hb. simpl.
  rewrite !get_breakpoint_slice_range. unfold distance.
  rewrite !cast_size_small by lia.
  unfold force_overwrite_through. rewrite decide_True by done. simpl.
  unfold vector_erase. rewrite length_insert, decide_True by lia. simpl.
  unfold vector_insert.
  rewrite take_insert_ge by lia. rewrite drop_insert_ge by lia.
  rewrite Nat.sub_diag. rewrite (drop_S j rb _ Hb). simpl.
  rewrite decide_True by (rewrite length_app, length_take; lia). simpl.
  rewrite take_app_length' by (rewrite length_take; lia).
  rewrite drop_app_length' by (rewrite length_take; lia).
  rewrite seq_ssize_small by done.
  unfold spliced, edit_offset, marked_entries, high_suffix_of, linear_offset, seq_empty.
  simpl.
  destruct (Z.eqb_spec (seq_begin (sequence ra)) (_sequence_it (low_breakend bp)));
    destruct (Z.ltb_spec 0 (seq_end alt - seq_begin alt));
    repeat case_decide; simpl; (done || lia).
Qed.

(** ** The result of [record_inline] *)

Lemma chain_nil_eq p q : p = q → chain p [] q.
Proof. intros ->. constructor. Qed.

Lemma chain_marked_entries ra sl alt :
  seq_begin (sequence ra) ≤ sl → seq_begin alt ≤ seq_end alt →
  chain (position ra) (marked_entries ra sl alt)
        (linear_offset ra sl + (seq_end alt - seq_begin alt)).
Proof.
  intros Hsl Halt. unfold marked_entries. apply chain_app.
  exists (linear_offset ra sl). unfold linear_offset. split; case_decide.
  - apply chain_nil_eq. lia.
  - constructor; simpl; [done | lia |]. apply chain_nil_eq. lia.
  - apply chain_nil_eq. lia.
  - constructor; simpl; [done | lia |]. apply chain_nil_eq. lia.
Qed.

Lemma spelled_marked_entries {A} (mem : Z → A) ra sl alt :
  spelled mem (marked_entries ra sl alt)
  = spell mem (subrange (seq_begin (sequence ra)) sl) ++ spell mem alt.
Proof.
  unfold marked_entries. repeat case_decide; unfold spelled; simpl;
    rewrite ?app_nil_r; try done.
  - rewrite !spell_empty by (simpl; lia). done.
  - rewrite (spell_empty mem (subrange _ _)) by (simpl; lia). done.
  - rewrite (spell_empty mem alt) by lia. by rewrite app_nil_r.
Qed.

Lemma chain_high_suffix p j q rb (b : nat) sh :
  chain p j q → j !! b = Some rb →
  seq_begin (sequence rb) ≤ sh ≤ seq_end (sequence rb) →
  chain (linear_offset rb sh) (high_suffix_of rb sh :: drop (S b) j) q.
Proof.
  intros Hc Hb Hsh. destruct (chain_lookup _ _ _ _ _ Hc Hb) as (_ & _ & Hd).
  unfold high_suffix_of, linear_offset. constructor; simpl; [done | lia |].
  replace (position rb + (sh - seq_begin (sequence rb)) + (seq_end (sequence rb) - sh))
    with (position rb + (seq_end (sequence rb) - seq_begin (sequence rb))) by lia.
  done.
Qed.

Lemma ends_with_sentinel_singleton s :
  seq_begin (sequence s) = seq_end (sequence s) → ends_with_sentinel [s].
Proof. intros H. by exists [], s. Qed.

Lemma ends_with_sentinel_app l1 l2 :
  ends_with_sentinel l2 → ends_with_sentinel (l1 ++ l2).
Proof.
  intros (body & s & -> & Hs). exists (l1 ++ body), s.
  by rewrite app_assoc.
Qed.

Lemma ends_with_sentinel_cons x l :
  ends_with_sentinel l → ends_with_sentinel (x :: l).
Proof. apply (ends_with_sentinel_app [x]). Qed.

Lemma valid_record_call_at j bp alt :
  journal_invariant j → valid_record_call j bp alt = true →
  ∃ q ra rb, call_at j q bp alt ra rb.
Proof.
  intros (q & Hc & Hs & Hq) Hv. unfold valid_record_call in Hv.
  apply andb_true_iff in Hv as [Hv Hb]. apply andb_true_iff in Hv as [Hv Ha].
  apply valid_breakpoint_inv in Hv as (ra & rb & H1 & H2 & H3 & H4 & H5).
  rewrite (sentinel_position_chain _ _ Hc Hs) in Hb.
  exists q, ra, rb. split; try done; lia.
Qed.

Section call.
Context {j : journal_type} {q : Z} {bp : breakpoint_type} {alt : sequence_type}
        {ra rb : record_impl} (Hat : call_at j q bp alt ra rb).

Lemma call_offsets :
  0 ≤ linear_offset ra (_sequence_it (low_breakend bp))
  ∧ linear_offset ra (_sequence_it (low_breakend bp))
    ≤ linear_offset rb (_sequence_it (high_breakend bp))
  ∧ linear_offset rb (_sequence_it (high_breakend bp)) ≤ q.
Proof using Hat.
  destruct Hat. unfold linear_offset.
  destruct (chain_lookup_bounds _ _ _ _ _ at_chain0 at_low0).
  destruct (chain_lookup_bounds _ _ _ _ _ at_chain0 at_high0).
  pose proof (breakpoint_offsets_le _ _ _ _ _ _ _ _ at_chain0 at_low0 at_high0
                at_low_range0 at_high_range0 at_order0).
  lia.
Qed.

Lemma call_to_ptrdiff :
  to_ptrdiff j (low_breakend bp)
  = Some (linear_offset ra (_sequence_it (low_breakend bp)))
  ∧ to_ptrdiff j (high_breakend bp)
    = Some (linear_offset rb (_sequence_it (high_breakend bp))).
Proof using Hat.
  destruct Hat. pose proof call_offsets.
  split; eapply to_ptrdiff_valid; eauto; lia.
Qed.

Lemma call_edit_offset :
  0 ≤ q + edit_offset bp alt ra rb
  ∧ q + edit_offset bp alt ra rb ≤ q + (seq_end alt - seq_begin alt).
Proof using Hat.
  pose proof call_offsets. destruct Hat. unfold edit_offset. lia.
Qed.

Lemma record_inline_at :
  ∃ it, record_inline j bp alt = Some (recorded j bp alt ra rb, it).
Proof using Hat.
  pose proof call_offsets as Hoff. pose proof call_edit_offset as Hed.
  destruct Hat.
  pose proof (lookup_lt_Some _ _ _ at_low0) as Hal.
  pose proof (chain_le _ _ _ at_chain0).
  unfold record_inline.
  rewrite (record_splice_valid j q bp alt ra rb) by (done || lia). simpl.
  eexists. do 2 f_equal.
  unfold spliced, recorded. rewrite app_assoc.
  erewrite update_positions_shift.
  - rewrite take_app_length' by (rewrite length_app, length_take; lia).
    by rewrite <- app_assoc.
  - apply drop_app_length'. rewrite length_app, length_take. lia.
  - eapply chain_high_suffix; eauto.
  - lia.
  - unfold edit_offset in *. lia.
  - lia.
Qed.

Lemma chain_recorded : chain 0 (recorded j bp alt ra rb) (q + edit_offset bp alt ra rb).
Proof using Hat.
  destruct Hat. unfold recorded.
  destruct (chain_lookup _ _ _ _ _ at_chain0 at_low0) as (Hpre & _ & _).
  apply chain_app. eexists. split; [exact Hpre |].
  apply chain_app. eexists. split.
  - apply chain_marked_entries; [lia | done].
  - replace (linear_offset ra (_sequence_it (low_breakend bp))
             + (seq_end alt - seq_begin alt))
      with (linear_offset rb (_sequence_it (high_breakend bp))
            + edit_offset bp alt ra rb)
      by (unfold edit_offset; lia).
    apply chain_shift. eapply chain_high_suffix; eauto.
Qed.

Lemma sentinel_recorded :
  ends_with_sentinel j → ends_with_sentinel (recorded j bp alt ra rb).
Proof using Hat.
  intros (body & s & -> & Hs). destruct Hat. unfold recorded.
  pose proof (lookup_lt_Some _ _ _ at_high0) as Hbl.
  rewrite length_app in Hbl. simpl in Hbl.
  do 2 apply ends_with_sentinel_app.
  destruct (decide (_journal_it (high_breakend bp) = length body)) as [Heq | Hne].
  - rewrite Heq in at_high0. rewrite list_lookup_middle in at_high0 by done.
    injection at_high0 as <-.
    rewrite drop_ge by (rewrite length_app; simpl; lia).
    apply ends_with_sentinel_singleton. simpl. lia.
  - rewrite drop_app_le by lia. rewrite fmap_cons, fmap_app.
    apply ends_with_sentinel_cons, ends_with_sentinel_app.
    by apply ends_with_sentinel_singleton.
Qed.

Lemma invariant_recorded :
  ends_with_sentinel j → journal_invariant (recorded j bp alt ra rb).
Proof using Hat.
  intros Hs. exists (q + edit_offset bp alt ra rb).
  pose proof call_edit_offset. pose proof (at_bound _ _ _ _ _ _ Hat).
  split; [apply chain_recorded |]. split; [by apply sentinel_recorded | lia].
Qed.

End call.

(** ** The derived sequence under an edit *)

(** Cutting the spelled symbols at the linear offset of a symbol of a
    record cuts the records there. *)
Lemma spelled_cut {A} (mem : Z → A) j q (i : nat) r s :
  chain 0 j q → j !! i = Some r →
  seq_begin (sequence r) ≤ s ≤ seq_end (sequence r) →
  take (Z.to_nat (linear_offset r s)) (spelled mem j)
  = spelled mem (take i j) ++ spell mem (subrange (seq_begin (sequence r)) s)
  ∧ drop (Z.to_nat (linear_offset r s)) (spelled mem j)
    = spell mem (subrange s (seq_end (sequence r))) ++ spelled mem (drop (S i) j).
Proof.
  intros Hc Hi Hs.
  destruct (chain_lookup _ _ _ _ _ Hc Hi) as (Hpre & _ & _).
  pose proof (chain_length mem _ _ _ Hpre) as Hlen.
  pose proof (chain_le _ _ _ Hpre) as Hle.
  pose proof (length_spell mem (subrange (seq_begin (sequence r)) s)) as Hls.
  simpl in Hls. specialize (Hls (proj1 Hs)).
  assert (spelled mem j
          = (spelled mem (take i j) ++ spell mem (subrange (seq_begin (sequence r)) s))
            ++ (spell mem (subrange s (seq_end (sequence r)))
                ++ spelled mem (drop (S i) j))) as ->.
  { rewrite <- (take_drop_middle j i r Hi) at 1.
    rewrite spelled_app, spelled_cons.
    destruct r as [pos [b e]]; simpl in *.
    rewrite (spell_split mem b s e) by done. by rewrite <- !app_assoc. }
  assert (Z.to_nat (linear_offset r s)
          = length (spelled mem (take i j)
                    ++ spell mem (subrange (seq_begin (sequence r)) s))) as ->.
  { rewrite length_app. unfold linear_offset. lia. }
  by rewrite take_app_length, drop_app_length.
Qed.

Lemma spelled_recorded {A} (mem : Z → A) j q bp alt ra rb :
  call_at j q bp alt ra rb →
  spelled mem (recorded j bp alt ra rb)
  = apply_edit (spelled mem j)
      (linear_offset ra (_sequence_it (low_breakend bp)))
      (linear_offset rb (_sequence_it (high_breakend bp)))
      (spell mem alt).
Proof.
  intros Hat. destruct Hat. unfold apply_edit, recorded.
  destruct (spelled_cut mem _ _ _ _ _ at_chain0 at_low0 at_low_range0) as [-> _].
  destruct (spelled_cut mem _ _ _ _ _ at_chain0 at_high0 at_high_range0) as [_ ->].
  rewrite !spelled_app, spelled_shift, spelled_marked_entries, spelled_cons.
  by rewrite <- !app_assoc.
Qed.

(** ** The journal as a whole *)

Lemma initialize_journal_empty source :
  initialize_journal source []
  = if seq_empty source then [mk_record (seq_size source) empty_sequence]
    else [mk_record 0 source; mk_record (seq_size source) empty_sequence].
Proof.
  unfold initialize_journal. destruct (seq_empty source); simpl; [done |].
  do 2 f_equal. unfold breakpoint_slice, to_breakpoint, distance. simpl.
  destruct source as [b e]. simpl. f_equal; lia.
Qed.

Lemma invariant_new source :
  valid_source source = true →
  chain 0 (_journal (Journal.new source)) (seq_end source - seq_begin source)
  ∧ journal_invariant (_journal (Journal.new source)).
Proof.
  intros Hv. unfold valid_source in Hv. apply andb_true_iff in Hv as [H1 H2].
  assert (seq_begin source ≤ seq_end source) as Hle by lia.
  assert (seq_end source - seq_begin source < 2 ^ 63) as Hlt by lia.
  assert (chain 0 (_journal (Journal.new source)) (seq_end source - seq_begin source)) as Hc.
  { simpl. rewrite initialize_journal_empty, seq_size_small by done.
    unfold seq_empty. destruct (Z.eqb_spec (seq_begin source) (seq_end source)) as [He | He].
    - constructor; simpl; [lia | done |]. apply chain_nil_eq. lia.
    - constructor; simpl; [done | done |].
      constructor; simpl; [lia | done |]. apply chain_nil_eq. lia. }
  split; [done |]. exists (seq_end source - seq_begin source).
  split; [done |]. split; [| done].
  simpl. rewrite initialize_journal_empty.
  destruct (seq_empty source).
  - by apply ends_with_sentinel_singleton.
  - by apply ends_with_sentinel_cons, ends_with_sentinel_singleton.
Qed.

(** The sentinel spells nothing: the derived sequence is what all records
    spell. *)
Lemma derived_spelled {A} (mem : Z → A) J :
  ends_with_sentinel (_journal J) → derived mem J = spelled mem (_journal J).
Proof.
  intros (body & s & Hj & Hs). unfold derived, Journal.end_, Journal.begin.
  rewrite Hj, drop_0, length_app. simpl.
  rewrite take_app_length' by lia.
  rewrite spelled_app, spelled_cons, spelled_nil, spell_empty by lia.
  by rewrite !app_nil_r.
Qed.

Lemma record_at J q bp alt ra rb :
  call_at (_journal J) q bp alt ra rb →
  ∃ it, Journal.record J bp alt
        = Some (mk_journal (_source J) (recorded (_journal J) bp alt ra rb), it).
Proof.
  intros Hat. destruct (record_inline_at Hat) as [it Hr].
  exists it. unfold Journal.record. by rewrite Hr.
Qed.

(** Every journal reached by valid calls satisfies the invariant and spells
    the edited sequence. *)
Lemma run_invariant {A} (mem : Z → A) src J D :
  valid_source src = true → run mem src J D →
  journal_invariant (_journal J) ∧ spelled mem (_journal J) = D.
Proof.
  intros Hsrc Hrun. induction Hrun as [|J D bp alt J' it lo hi Hrun IH Hok Hlo Hhi Hrec].
  - destruct (invariant_new src Hsrc) as [Hc Hinv]. split; [done |].
    simpl. rewrite initialize_journal_empty.
    destruct (seq_empty src) eqn:He; unfold spelled; simpl.
    + unfold seq_empty in He. rewrite (spell_empty mem src) by lia. done.
    + by rewrite app_nil_r.
  - destruct IH as [Hinv HD].
    destruct (valid_record_call_at _ _ _ Hinv Hok) as (q & ra & rb & Hat).
    destruct (record_at J _ _ _ _ _ Hat) as [it' Hr].
    rewrite Hr in Hrec. injection Hrec as <- <-.
    destruct (call_to_ptrdiff Hat) as [Hl Hh].
    rewrite Hl in Hlo. rewrite Hh in Hhi. injection Hlo as <-. injection Hhi as <-.
    destruct Hinv as (q' & Hc' & Hs' & Hq'). simpl. split.
    + by apply (invariant_recorded Hat).
    + rewrite <- HD. by eapply spelled_recorded.
Qed.

Lemma check_adjacent_chain p j q :
  chain p j q → 0 ≤ p → q < 2 ^ 63 → check_adjacent j = true.
Proof.
  induction 1 as [|p r l q Hp Hs Hc IH]; intros H0 Hq; [done |].
  pose proof (chain_le _ _ _ Hc).
  destruct l as [|next l]; [done |].
  change (check_adjacent (r :: next :: l))
    with ((cast_size (position r + seq_size (sequence r)) =? position next)
          && check_adjacent (next :: l)).
  rewrite IH by lia. rewrite andb_true_r.
  inversion Hc; subst.
  rewrite seq_size_small, cast_size_small by lia. lia.
Qed.

Lemma check_journal_invariants_chain j q :
  chain 0 j q → j ≠ [] → q < 2 ^ 63 → check_journal_invariants j = true.
Proof.
  intros Hc Hne Hq. destruct j as [|first l]; [done |].
  unfold check_journal_invariants.
  rewrite (check_adjacent_chain _ _ _ Hc) by lia.
  inversion Hc; subst. rewrite andb_true_r. lia.
Qed.

Lemma ends_with_sentinel_nonempty j : ends_with_sentinel j → j ≠ [].
Proof. intros (body & s & -> & _). by destruct body. Qed.

(** The substitution of "CG" by "XY" is a run from "ACGT". *)
Lemma run_sub :
  run mem_ex src_acgt J_sub
    (apply_edit (spell mem_ex src_acgt) 1 3 (spell mem_ex alt_xy)).
Proof.
  apply (run_record valid_record_call mem_ex src_acgt
           (Journal.new src_acgt) (spell mem_ex src_acgt) bp_sub alt_xy J_sub 1%nat 1 3).
  - apply run_new.
  - reflexivity.
  - reflexivity.
  - reflexivity.
  - reflexivity.
Defined.

(** ** Empty segments *)

Lemma no_empty_segment_snoc body s :
  no_empty_segment (body ++ [s])
  ↔ Forall (λ r, seq_begin (sequence r) < seq_end (sequence r)) body.
Proof.
  unfold no_empty_segment. rewrite Forall_lookup. split.
  - intros H i r Hi. apply (H i).
    + by apply lookup_app_l_Some.
    + apply lookup_lt_Some in Hi. rewrite length_app. simpl. lia.
  - intros H i r Hi Hlt. rewrite length_app in Hlt. simpl in Hlt.
    rewrite lookup_app_l in Hi by lia. by apply (H i).
Qed.

Lemma nonempty_marked_entries ra sl alt :
  seq_begin (sequence ra) ≤ sl → seq_begin alt ≤ seq_end alt →
  Forall (λ r, seq_begin (sequence r) < seq_end (sequence r)) (marked_entries ra sl alt).
Proof.
  intros Hsl Halt. unfold marked_entries. apply Forall_app.
  split; case_decide; repeat constructor; simpl; lia.
Qed.

Lemma no_empty_recorded j q bp alt ra rb :
  call_at j q bp alt ra rb → normal_high_breakend j bp = true →
  ends_with_sentinel j → no_empty_segment j →
  no_empty_segment (recorded j bp alt ra rb).
Proof.
  intros Hat Hn (body & s & -> & Hs) Hne. destruct Hat.
  apply no_empty_segment_snoc in Hne.
  pose proof (lookup_lt_Some _ _ _ at_high0) as Hbl.
  rewrite length_app in Hbl. simpl in Hbl.
  unfold normal_high_breakend in Hn. rewrite at_high0, length_app in Hn.
  change (length [s]) with 1%nat in Hn.
  assert (_journal_it (low_breakend bp) ≤ _journal_it (high_breakend bp))%nat
    as Hab by lia.
  pose proof (nonempty_marked_entries ra (_sequence_it (low_breakend bp)) alt
                (proj1 at_low_range0) at_alt0) as Hent.
  unfold recorded. rewrite take_app_le by lia.
  destruct (decide (_journal_it (high_breakend bp) = length body)) as [Heq | Hneq].
  - rewrite drop_ge by (rewrite length_app; simpl; lia).
    rewrite fmap_cons, fmap_nil.
    replace (take (_journal_it (low_breakend bp)) body
             ++ marked_entries ra (_sequence_it (low_breakend bp)) alt
             ++ [shift (edit_offset bp alt ra rb)
                   (high_suffix_of rb (_sequence_it (high_breakend bp)))])
      with ((take (_journal_it (low_breakend bp)) body
             ++ marked_entries ra (_sequence_it (low_breakend bp)) alt)
            ++ [shift (edit_offset bp alt ra rb)
                  (high_suffix_of rb (_sequence_it (high_breakend bp)))])
      by (by rewrite <- app_assoc).
    apply no_empty_segment_snoc, Forall_app. split; [by apply Forall_take | done].
  - rewrite drop_app_le by lia. rewrite fmap_cons, fmap_app. simpl.
    replace (take (_journal_it (low_breakend bp)) body
             ++ marked_entries ra (_sequence_it (low_breakend bp)) alt
             ++ shift (edit_offset bp alt ra rb)
                  (high_suffix_of rb (_sequence_it (high_breakend bp)))
                :: (shift (edit_offset bp alt ra rb)
                      <$> drop (S (_journal_it (high_breakend bp))) body)
                   ++ [shift (edit_offset bp alt ra rb) s])
      with ((take (_journal_it (low_breakend bp)) body
             ++ marked_entries ra (_sequence_it (low_breakend bp)) alt
             ++ shift (edit_offset bp alt ra rb)
                  (high_suffix_of rb (_sequence_it (high_breakend bp)))
                :: (shift (edit_offset bp alt ra rb)
                      <$> drop (S (_journal_it (high_breakend bp))) body))
            ++ [shift (edit_offset bp alt ra rb) s])
      by (by rewrite <- !app_assoc).
    apply no_empty_segment_snoc.
    apply Forall_app. split; [by apply Forall_take |].
    apply Forall_app. split; [done |].
    apply Forall_cons. split.
    + simpl. apply orb_true_iff in Hn as [Hn | Hn]; [lia |].
      apply Nat.eqb_eq in Hn. lia.
    + apply Forall_fmap. by apply Forall_drop.
Qed.

Lemma run_with_mono {A} (ok ok' : journal_type → breakpoint_type → sequence_type → bool)
    (mem : Z → A) src J D :
  (∀ j bp alt, ok j bp alt = true → ok' j bp alt = true) →
  run_with ok mem src J D → run_with ok' mem src J D.
Proof.
  intros Himp. induction 1; [constructor |].
  eapply run_record; eauto.
Qed.

Lemma run_normal_run {A} (mem : Z → A) src J D :
  run_normal mem src J D → run mem src J D.
Proof.
  apply run_with_mono. intros j bp alt H.
  unfold normal_record_call in H. by apply andb_true_iff in H as [H _].
Qed.

Lemma run_normal_no_empty {A} (mem : Z → A) src J D :
  valid_source src = true → run_normal mem src J D → no_empty_segment (_journal J).
Proof.
  intros Hsrc Hrun.
  induction Hrun as [|J D bp alt J' it lo hi Hrun IH Hok Hlo Hhi Hrec].
  - simpl. rewrite initialize_journal_empty. unfold seq_empty.
    unfold valid_source in Hsrc. apply andb_true_iff in Hsrc as [H1 H2].
    destruct (Z.eqb_spec (seq_begin src) (seq_end src)).
    + by apply (no_empty_segment_snoc []).
    + apply (no_empty_segment_snoc [_]). repeat constructor. simpl. lia.
  - pose proof (run_normal_run _ _ _ _ Hrun) as Hrun'.
    destruct (run_invariant mem src J D Hsrc Hrun') as [Hinv _].
    unfold normal_record_call in Hok. apply andb_true_iff in Hok as [Hok Hn].
    destruct (valid_record_call_at _ _ _ Hinv Hok) as (q & ra & rb & Hat).
    destruct (record_at J _ _ _ _ _ Hat) as [it' Hr].
    rewrite Hr in Hrec. injection Hrec as <- <-. simpl.
    destruct Hinv as (q' & _ & Hs & _).
    by eapply no_empty_recorded.
Qed.

(** The deletion of "GT" through a high breakend at the end of the segment
    is a run from "ACGT". *)
Lemma run_del :
  run mem_ex src_acgt J_del
    (apply_edit (spell mem_ex src_acgt) 2 4 (spell mem_ex empty_sequence)).
Proof.
  apply (run_record valid_record_call mem_ex src_acgt
           (Journal.new src_acgt) (spell mem_ex src_acgt) bp_del empty_sequence
           J_del 1%nat 2 4).
  - apply run_new.
  - reflexivity.
  - reflexivity.
  - reflexivity.
  - reflexivity.
Defined.

(** The substitution of "CG" by "XY" is also a run of normalised calls. *)
Lemma run_normal_sub :
  run_normal mem_ex src_acgt J_sub
    (apply_edit (spell mem_ex src_acgt) 1 3 (spell mem_ex alt_xy)).
Proof.
  apply (run_record normal_record_call mem_ex src_acgt
           (Journal.new src_acgt) (spell mem_ex src_acgt) bp_sub alt_xy J_sub 1%nat 1 3).
  - apply run_new.
  - reflexivity.
  - reflexivity.
  - reflexivity.
  - reflexivity.
Defined.

(** ** The rewriting of positions *)

Lemma record_splice_at j q bp alt ra rb :
  call_at j q bp alt ra rb →
  record_splice j bp alt
  = Some (spliced j bp alt ra rb,
          _journal_it (low_breakend bp),
          length (marked_entries ra (_sequence_it (low_breakend bp)) alt),
          edit_offset bp alt ra rb)
  ∧ seq_ssize alt = seq_end alt - seq_begin alt
  ∧ breakend_span j bp
    = Some (linear_offset rb (_sequence_it (high_breakend bp))
            - linear_offset ra (_sequence_it (low_breakend bp))).
Proof.
  intros Hat. pose proof (call_offsets Hat) as Hoff.
  destruct (call_to_ptrdiff Hat) as [Hl Hh]. destruct Hat.
  pose proof (chain_le _ _ _ at_chain0).
  split; [| split].
  - apply (record_splice_valid j q); (done || lia).
  - apply seq_ssize_small; lia.
  - unfold breakend_span, breakend_minus. by rewrite Hl, Hh.
Qed.

(** ** Undoing a substitution *)

Lemma apply_edit_undo {A} (D X : list A) lo hi :
  0 ≤ lo ≤ hi → hi ≤ Z.of_nat (length D) →
  apply_edit (apply_edit D lo hi X) lo (lo + Z.of_nat (length X))
    (take (Z.to_nat (hi - lo)) (drop (Z.to_nat lo) D))
  = D.
Proof.
  intros Hlo Hhi. unfold apply_edit.
  assert (length (take (Z.to_nat lo) D) = Z.to_nat lo) as Hl
    by (rewrite length_take; lia).
  rewrite take_app_length' by done.
  replace (Z.to_nat (lo + Z.of_nat (length X)))
    with (length (take (Z.to_nat lo) D ++ X)) by (rewrite length_app; lia).
  rewrite (app_assoc (take (Z.to_nat lo) D) X), drop_app_length.
  replace (Z.to_nat hi) with (Z.to_nat lo + Z.to_nat (hi - lo))%nat by lia.
  rewrite <- drop_drop, take_drop. apply take_drop.
Qed.

(** ** Lookup *)

(** [std::ranges::find] with the position projection stops only at a record
    whose position is the key itself. *)
Lemma ranges_find_exact l key :
  (Journal.ranges_find l key ≤ length l)%nat
  ∧ ∀ r, l !! Journal.ranges_find l key = Some r → position r = key.
Proof.
  induction l as [|x l [IH1 IH2]]; simpl; [split; [lia | done] |].
  destruct (Z.eqb_spec (position x) key) as [He | He]; simpl.
  - split; [lia |]. by intros r [= <-].
  - split; [lia | done].
Qed.

(** ** The scenarios of the test suite *)

Example insert_in_the_middle :
  after_record (breakend 0 102, breakend 0 102) alt_xy
  = Some ["A"; "C"; "X"; "Y"; "G"; "T"]%char.
Proof. reflexivity. Qed.

Example insert_at_the_beginning :
  after_record (breakend 0 100, breakend 0 100) alt_xy
  = Some ["X"; "Y"; "A"; "C"; "G"; "T"]%char.
Proof. reflexivity. Qed.

Example insert_at_the_end :
  after_record (breakend 1 0, breakend 1 0) alt_xy
  = Some ["A"; "C"; "G"; "T"; "X"; "Y"]%char.
Proof. reflexivity. Qed.

Example erase_single_element :
  after_record (breakend 0 102, breakend 0 103) empty_sequence
  = Some ["A"; "C"; "T"]%char.
Proof. reflexivity. Qed.

Example erase_range :
  after_record (breakend 0 101, breakend 0 103) empty_sequence
  = Some ["A"; "T"]%char.
Proof. reflexivity. Qed.

Example replace_all :
  after_record (breakend 0 100, breakend 1 0) alt_xy = Some ["X"; "Y"]%char.
Proof. reflexivity. Qed.

Example replace_segment :
  after_record bp_sub alt_xy = Some ["A"; "X"; "Y"; "T"]%char.
Proof. reflexivity. Qed.

(* ================================================================== *)
(** * The claims *)

(** C1. For every journal created from a source and every sequence of valid
    [record] calls applied to it: the first record's position is 0, each
    further record's position is the previous record's position plus the
    size of the previous record's segment, the segments in order spell the
    sequence obtained by applying the edits to the source, the code's own
    [check_journal_invariants] holds, and every further valid call returns. *)
Theorem journal_records_tile_derived_sequence {A} (mem : Z → A) src J D :
  valid_source src = true → run mem src J D →
  (∃ first, _journal J !! 0%nat = Some first ∧ position first = 0)
  ∧ (∀ i r next, _journal J !! i = Some r → _journal J !! S i = Some next →
                 position next = position r + seq_size (sequence r))
  ∧ derived mem J = D
  ∧ check_journal_invariants (_journal J) = true
  ∧ (∀ bp alt, valid_record_call (_journal J) bp alt = true →
               ∃ J' it, Journal.record J bp alt = Some (J', it)).
Proof.
  intros Hsrc Hrun.
  destruct (run_invariant mem src J D Hsrc Hrun) as [Hinv HD].
  pose proof Hinv as (q & Hc & Hs & Hq).
  pose proof (ends_with_sentinel_nonempty _ Hs) as Hne.
  split; [| split; [| split; [| split]]].
  - destruct (_journal J) as [|first l]; [done |].
    exists first. split; [done |]. by inversion Hc.
  - intros i r next Hr Hn.
    rewrite (chain_adjacent _ _ _ _ _ _ Hc Hr Hn).
    destruct (chain_lookup _ _ _ _ _ Hc Hr) as (_ & Hv & _).
    destruct (chain_lookup_bounds _ _ _ _ _ Hc Hr).
    rewrite seq_size_small by lia. done.
  - by rewrite derived_spelled.
  - by apply (check_journal_invariants_chain _ q).
  - intros bp alt Hok.
    destruct (valid_record_call_at _ _ _ Hinv Hok) as (q' & ra & rb & Hat).
    destruct (record_at J _ _ _ _ _ Hat) as [it Hr]. eauto.
Qed.

Lemma journal_records_tile_derived_sequence_witness :
  (∃ first, _journal J_sub !! 0%nat = Some first ∧ position first = 0)
  ∧ (∀ i r next, _journal J_sub !! i = Some r → _journal J_sub !! S i = Some next →
                 position next = position r + seq_size (sequence r))
  ∧ derived mem_ex J_sub = ["A"; "X"; "Y"; "T"]%char
  ∧ check_journal_invariants (_journal J_sub) = true
  ∧ (∀ bp alt, valid_record_call (_journal J_sub) bp alt = true →
               ∃ J' it, Journal.record J_sub bp alt = Some (J', it)).
Proof.
  apply (journal_records_tile_derived_sequence mem_ex src_acgt J_sub _ eq_refl run_sub).
Defined.

(** C2, as stated, fails: the edit of no symbols by no symbols at a valid
    breakend in the middle of "ACGT" is not rejected. The call returns, and
    the record list is not what it was: the record is split in two. *)
Lemma record_accepts_empty_edit :
  valid_breakpoint (_journal J_acgt) bp_nop = true
  ∧ breakend_span (_journal J_acgt) bp_nop = Some 0
  ∧ seq_empty empty_sequence = true
  ∧ Journal.record J_acgt bp_nop empty_sequence = Some (J_nop, 1%nat)
  ∧ _journal J_nop ≠ _journal J_acgt.
Proof. repeat split; done. Qed.

(** C2, amended. [record] has no error path. On every reachable journal a
    call with a valid breakpoint of span zero and an empty new sequence
    returns; the journal it leaves satisfies the invariant and has the same
    derived sequence. *)
Theorem record_empty_edit_returns {A} (mem : Z → A) src J D bp alt :
  valid_source src = true → run mem src J D →
  valid_breakpoint (_journal J) bp = true →
  breakend_span (_journal J) bp = Some 0 →
  seq_empty alt = true →
  ∃ J' it, Journal.record J bp alt = Some (J', it)
           ∧ derived mem J' = derived mem J
           ∧ check_journal_invariants (_journal J') = true.
Proof.
  intros Hsrc Hrun Hbp Hspan Halt.
  destruct (run_invariant mem src J D Hsrc Hrun) as [Hinv HD].
  pose proof Hinv as (q & Hc & Hs & Hq).
  unfold seq_empty in Halt. apply Z.eqb_eq in Halt.
  assert (valid_record_call (_journal J) bp alt = true) as Hok.
  { unfold valid_record_call. rewrite Hbp, (sentinel_position_chain _ _ Hc Hs). simpl.
    apply andb_true_iff. split; lia. }
  destruct (valid_record_call_at _ _ _ Hinv Hok) as (q' & ra & rb & Hat).
  destruct (record_at J _ _ _ _ _ Hat) as [it Hr].
  destruct (call_to_ptrdiff Hat) as [Hl Hh].
  unfold breakend_span, breakend_minus in Hspan. rewrite Hl, Hh in Hspan.
  simpl in Hspan. injection Hspan as Hspan.
  pose proof (invariant_recorded Hat Hs) as (q2 & Hc2 & Hs2 & Hq2).
  eexists _, it. split; [exact Hr |]. split.
  - rewrite !derived_spelled by done. simpl.
    rewrite (spelled_recorded mem _ _ _ _ _ _ Hat). unfold apply_edit.
    replace (linear_offset rb (_sequence_it (high_breakend bp)))
      with (linear_offset ra (_sequence_it (low_breakend bp))) by lia.
    rewrite (spell_empty mem alt) by lia. simpl. apply take_drop.
  - simpl. apply (check_journal_invariants_chain _ q2); [done | | done].
    by apply ends_with_sentinel_nonempty.
Qed.

Lemma record_empty_edit_returns_witness :
  ∃ J' it, Journal.record J_acgt bp_nop empty_sequence = Some (J', it)
           ∧ derived mem_ex J' = derived mem_ex J_acgt
           ∧ check_journal_invariants (_journal J') = true.
Proof.
  apply (record_empty_edit_returns mem_ex src_acgt J_acgt _ bp_nop empty_sequence
           eq_refl (run_new _ _ _) eq_refl eq_refl eq_refl).
Defined.

(** C3 on the code. The member [find] passes five arguments to
    [std::ranges::find], which takes at most four: as written no overload is
    viable and [find] cannot be instantiated. With the surplus comparator left
    out, [find(2)] on the journal of "ACGT" returns [end()]: no record starts
    at 2. Under either reading the code does not return the entry that
    contains the key 2, the first one, which covers the positions 0 to 3. *)
Theorem find_misses_key_inside_segment :
  Journal.find J_acgt 2 = Journal.no_viable_overload
  ∧ Journal.find_without_comparator J_acgt 2 = Journal.end_ J_acgt
  ∧ Journal.end_ J_acgt = 1%nat
  ∧ containing_entry J_acgt 2 = Some 0%nat
  ∧ _journal J_acgt !! 0%nat = Some (mk_record 0 (subrange 100 104)).
Proof. repeat split; done. Qed.

(** C4, as stated, fails for the empty source: the list holds the sentinel
    only and the number of logical entries is 0. *)
Lemma new_of_empty_source_has_no_entry :
  seq_empty src_none = true
  ∧ _journal (Journal.new src_none) = [mk_record 0 empty_sequence]
  ∧ Journal.size (Journal.new src_none) = 0
  ∧ Journal.size (Journal.new src_none) ≠ 1.
Proof. repeat split; done. Qed.

(** C4, amended. For a non-empty source [new(S)] holds one segment covering
    all of S and the sentinel, and has one logical entry; for the empty
    source it holds the sentinel only and has no logical entry. *)
Theorem new_holds_source_and_sentinel src :
  _journal (Journal.new src)
  = (if seq_empty src then [] else [mk_record 0 src])
    ++ [mk_record (seq_size src) empty_sequence]
  ∧ Journal.size (Journal.new src) = (if seq_empty src then 0 else 1)
  ∧ _source (Journal.new src) = src.
Proof.
  simpl. rewrite initialize_journal_empty. unfold Journal.size. simpl.
  rewrite initialize_journal_empty. by destruct (seq_empty src).
Qed.

(** C5, as stated, fails: in the journal of "AXYT" the end of the first
    record and the begin of the second have the same linear offset 1, yet the
    first compares less than the second and they are not equal. *)
Lemma breakends_of_equal_offset_differ :
  valid_breakend (_journal J_sub) b_end_of_first = true
  ∧ valid_breakend (_journal J_sub) b_begin_of_second = true
  ∧ to_ptrdiff (_journal J_sub) b_end_of_first = Some 1
  ∧ to_ptrdiff (_journal J_sub) b_begin_of_second = Some 1
  ∧ breakend_compare b_end_of_first b_begin_of_second = Lt
  ∧ breakend_eqb b_end_of_first b_begin_of_second = false.
Proof. repeat split; done. Qed.

(** C5, amended. The comparison of breakends is the defaulted member-wise
    one, by journal iterator and then by sequence iterator. For two valid
    breakends of a reachable journal, with [o1] and [o2] their converted
    linear offsets [pos(record) + distance(record.begin, symbol)]: a smaller
    offset implies comparing less, comparing less implies an offset not
    greater, breakends compare equal exactly when they are the same pair of
    iterators, and then the offsets are equal; subtraction yields [o1 - o2]. *)
Theorem breakend_order_follows_offsets {A} (mem : Z → A) src J D b1 b2 :
  valid_source src = true → run mem src J D →
  valid_breakend (_journal J) b1 = true →
  valid_breakend (_journal J) b2 = true →
  ∃ r1 r2 o1 o2,
    _journal J !! _journal_it b1 = Some r1
    ∧ _journal J !! _journal_it b2 = Some r2
    ∧ o1 = position r1 + distance (seq_begin (sequence r1)) (_sequence_it b1)
    ∧ o2 = position r2 + distance (seq_begin (sequence r2)) (_sequence_it b2)
    ∧ to_ptrdiff (_journal J) b1 = Some o1
    ∧ to_ptrdiff (_journal J) b2 = Some o2
    ∧ (o1 < o2 → breakend_compare b1 b2 = Lt)
    ∧ (breakend_compare b1 b2 = Lt → o1 ≤ o2)
    ∧ (breakend_compare b1 b2 = Eq ↔ b1 = b2)
    ∧ (breakend_eqb b1 b2 = true ↔ b1 = b2)
    ∧ (b1 = b2 → o1 = o2)
    ∧ breakend_minus (_journal J) b1 b2 = Some (o1 - o2).
Proof.
  intros Hsrc Hrun Hv1 Hv2.
  destruct (run_invariant mem src J D Hsrc Hrun) as [(q & Hc & Hs & Hq) _].
  apply valid_breakend_inv in Hv1 as (r1 & Hr1 & Hb1).
  apply valid_breakend_inv in Hv2 as (r2 & Hr2 & Hb2).
  pose proof (to_ptrdiff_valid _ _ _ _ Hc Hq Hr1 Hb1) as Ho1.
  pose proof (to_ptrdiff_valid _ _ _ _ Hc Hq Hr2 Hb2) as Ho2.
  exists r1, r2. eexists _, _. unfold distance.
  do 4 (split; [done |]). split; [exact Ho1 |]. split; [exact Ho2 |].
  unfold breakend_compare, breakend_eqb.
  destruct b1 as [i1 s1], b2 as [i2 s2]. simpl in *.
  split; [| split; [| split; [| split; [| split]]]].
  - intros Hlt. destruct (Nat.compare_spec i1 i2) as [-> | Hi | Hi]; [| done |].
    + rewrite Hr1 in Hr2. injection Hr2 as ->. apply Z.compare_lt_iff. lia.
    + pose proof (chain_lookup_lt _ _ _ _ _ _ _ Hc Hr2 Hr1 Hi). lia.
  - destruct (Nat.compare_spec i1 i2) as [-> | Hi | Hi]; [| | done]; intros Hlt.
    + rewrite Hr1 in Hr2. injection Hr2 as ->. rewrite Z.compare_lt_iff in Hlt. lia.
    + pose proof (chain_lookup_lt _ _ _ _ _ _ _ Hc Hr1 Hr2 Hi). lia.
  - destruct (Nat.compare_spec i1 i2) as [-> | Hi | Hi].
    + rewrite Z.compare_eq_iff. split; [by intros -> | by intros [=]].
    + split; [done | intros [=]; lia].
    + split; [done | intros [=]; lia].
  - rewrite andb_true_iff, Nat.eqb_eq, Z.eqb_eq.
    split; [by intros [-> ->] | by intros [=]].
  - intros [= -> ->]. rewrite Hr1 in Hr2. by injection Hr2 as ->.
  - unfold breakend_minus. rewrite Ho1, Ho2. done.
Qed.

Lemma breakend_order_follows_offsets_witness :
  ∃ r1 r2 o1 o2,
    _journal J_sub !! _journal_it b_end_of_first = Some r1
    ∧ _journal J_sub !! _journal_it b_begin_of_second = Some r2
    ∧ o1 = position r1 + distance (seq_begin (sequence r1)) (_sequence_it b_end_of_first)
    ∧ o2 = position r2 + distance (seq_begin (sequence r2)) (_sequence_it b_begin_of_second)
    ∧ to_ptrdiff (_journal J_sub) b_end_of_first = Some o1
    ∧ to_ptrdiff (_journal J_sub) b_begin_of_second = Some o2
    ∧ (o1 < o2 → breakend_compare b_end_of_first b_begin_of_second = Lt)
    ∧ (breakend_compare b_end_of_first b_begin_of_second = Lt → o1 ≤ o2)
    ∧ (breakend_compare b_end_of_first b_begin_of_second = Eq
       ↔ b_end_of_first = b_begin_of_second)
    ∧ (breakend_eqb b_end_of_first b_begin_of_second = true
       ↔ b_end_of_first = b_begin_of_second)
    ∧ (b_end_of_first = b_begin_of_second → o1 = o2)
    ∧ breakend_minus (_journal J_sub) b_end_of_first b_begin_of_second = Some (o1 - o2).
Proof.
  apply (breakend_order_follows_offsets mem_ex src_acgt J_sub _
           b_end_of_first b_begin_of_second eq_refl run_sub eq_refl eq_refl).
Defined.

(** C6. After construction and after every valid [record] call the list is
    the range [[begin(), end())] followed by one more record, the sentinel:
    its segment is empty and its position is the length of the derived
    sequence; [size()] counts the records of the range only. The number of
    records is taken to fit [size_type], as the size of a [std::vector]. *)
Theorem sentinel_ends_journal {A} (mem : Z → A) src J D :
  valid_source src = true → run mem src J D →
  Z.of_nat (length (_journal J)) ≤ 2 ^ 64 →
  ∃ s, _journal J
       = take (Journal.end_ J - Journal.begin J) (drop (Journal.begin J) (_journal J)) ++ [s]
       ∧ last (_journal J) = Some s
       ∧ _journal J !! Journal.end_ J = Some s
       ∧ seq_empty (sequence s) = true
       ∧ position s = Z.of_nat (length (derived mem J))
       ∧ Journal.size J
         = Z.of_nat (length (take (Journal.end_ J - Journal.begin J)
                               (drop (Journal.begin J) (_journal J)))).
Proof.
  intros Hsrc Hrun Hlen.
  destruct (run_invariant mem src J D Hsrc Hrun) as [(q & Hc & Hs & Hq) _].
  pose proof (sentinel_position_chain _ _ Hc Hs) as Hpos.
  pose proof (chain_length mem _ _ _ Hc) as Hl.
  rewrite <- (derived_spelled mem J Hs) in Hl.
  destruct Hs as (body & s & Hj & Hempty).
  unfold Journal.size, Journal.end_, Journal.begin, sentinel_position in *.
  rewrite Hj in *. rewrite length_app in *. simpl in *.
  rewrite last_snoc in Hpos. simpl in Hpos.
  exists s. rewrite !drop_0, !Nat.sub_0_r.
  replace (length body + 1 - 1)%nat with (length body) by lia.
  rewrite take_app_length.
  split; [done |]. split; [apply last_snoc |].
  split; [rewrite list_lookup_middle; [done | lia] |].
  split; [unfold seq_empty; lia |]. split; [lia |].
  rewrite cast_size_small by lia. lia.
Qed.

Lemma sentinel_ends_journal_witness :
  ∃ s, _journal J_sub
       = take (Journal.end_ J_sub - Journal.begin J_sub)
           (drop (Journal.begin J_sub) (_journal J_sub)) ++ [s]
       ∧ last (_journal J_sub) = Some s
       ∧ _journal J_sub !! Journal.end_ J_sub = Some s
       ∧ seq_empty (sequence s) = true
       ∧ position s = Z.of_nat (length (derived mem_ex J_sub))
       ∧ Journal.size J_sub
         = Z.of_nat (length (take (Journal.end_ J_sub - Journal.begin J_sub)
                               (drop (Journal.begin J_sub) (_journal J_sub)))).
Proof.
  apply (sentinel_ends_journal mem_ex src_acgt J_sub _ eq_refl run_sub).
  vm_compute. discriminate.
Defined.

(** C7, as stated, fails: deleting "GT" from "ACGT" with the high breakend
    at the end of the segment is a valid call and leaves two adjacent records
    with empty segments, the emptied suffix and the sentinel. Nothing on the
    write path merges records. *)
Lemma run_reaches_adjacent_empty_records :
  run mem_ex src_acgt J_del ["A"; "C"]%char
  ∧ _journal J_del
    = [mk_record 0 (subrange 100 102); mk_record 2 (subrange 104 104);
       mk_record 2 empty_sequence]
  ∧ adjacent_empty (_journal J_del).
Proof.
  split; [exact run_del |]. split; [done |].
  exists 1%nat, (mk_record 2 (subrange 104 104)), (mk_record 2 empty_sequence).
  repeat split; done.
Qed.

(** C7, amended. After any sequence of valid [record] calls whose high
    breakend does not sit at the end of the segment of a record that has a
    successor, every record but the sentinel has a non-empty segment, so no
    two adjacent records have empty segments. The write path merges nothing. *)
Theorem normal_run_has_no_adjacent_empty_records {A} (mem : Z → A) src J D :
  valid_source src = true → run_normal mem src J D →
  no_empty_segment (_journal J) ∧ ¬ adjacent_empty (_journal J).
Proof.
  intros Hsrc Hrun.
  pose proof (run_normal_no_empty mem src J D Hsrc Hrun) as Hne.
  split; [done |].
  intros (i & r & next & Hr & Hn & He & _).
  pose proof (lookup_lt_Some _ _ _ Hn) as Hlt.
  specialize (Hne i r Hr Hlt). unfold seq_empty in He. lia.
Qed.

Lemma normal_run_has_no_adjacent_empty_records_witness :
  no_empty_segment (_journal J_sub) ∧ ¬ adjacent_empty (_journal J_sub).
Proof.
  apply (normal_run_has_no_adjacent_empty_records mem_ex src_acgt J_sub _
           eq_refl run_normal_sub).
Defined.



(** C9, as stated, fails: substituting "CG" by "XY" in "ACGT" and then
    recording "CG" back over the interval of "XY" restores the symbols, but
    not the position structure. The journal before has one record, at
    position 0, before the sentinel; the journal after has three, at the
    positions 0, 1 and 3. *)
Lemma undo_does_not_restore_positions :
  Journal.record J_acgt bp_sub alt_xy = Some (J_sub, 1%nat)
  ∧ spell mem_ex alt_cg = take 2 (drop 1 (derived mem_ex J_acgt))
  ∧ Journal.record J_sub bp_undo alt_cg = Some (J_undone, 1%nat)
  ∧ derived mem_ex J_undone = derived mem_ex J_acgt
  ∧ position <$> _journal J_acgt = [0; 4]
  ∧ position <$> _journal J_undone = [0; 1; 3; 4]
  ∧ Journal.size J_acgt = 1
  ∧ Journal.size J_undone = 3
  ∧ _journal J_undone ≠ _journal J_acgt.
Proof. repeat split; done. Qed.

(** C9, amended. On a reachable journal, a substitution (span and new
    sequence both non-empty) followed by its inverse, the call that records
    the symbols the substitution replaced over the interval the new sequence
    occupies, returns and leaves a journal with the derived sequence, the
    length and the source of the journal before the substitution, and which
    satisfies the position invariant again. The record list, and with it the
    number and the positions of the records, is not restored. *)
Theorem substitution_undo_restores_journal {A} (mem : Z → A)
    src J D bp alt lo hi J1 it1 bp' alt' :
  valid_source src = true → run mem src J D →
  valid_record_call (_journal J) bp alt = true →
  to_ptrdiff (_journal J) (low_breakend bp) = Some lo →
  to_ptrdiff (_journal J) (high_breakend bp) = Some hi →
  lo < hi → 0 < seq_ssize alt →
  Journal.record J bp alt = Some (J1, it1) →
  valid_record_call (_journal J1) bp' alt' = true →
  to_ptrdiff (_journal J1) (low_breakend bp') = Some lo →
  to_ptrdiff (_journal J1) (high_breakend bp') = Some (lo + seq_ssize alt) →
  spell mem alt' = take (Z.to_nat (hi - lo)) (drop (Z.to_nat lo) (derived mem J)) →
  ∃ J2 it2,
    Journal.record J1 bp' alt' = Some (J2, it2)
    ∧ derived mem J2 = derived mem J
    ∧ sentinel_position (_journal J2) = sentinel_position (_journal J)
    ∧ _source J2 = _source J
    ∧ check_journal_invariants (_journal J2) = true
    ∧ (∃ first, _journal J2 !! 0%nat = Some first ∧ position first = 0)
    ∧ (∀ i r next, _journal J2 !! i = Some r → _journal J2 !! S i = Some next →
                   position next = position r + seq_size (sequence r)).
Proof.
  intros Hsrc Hrun Hok Hlo Hhi Hlt Hins Hrec Hok' Hlo' Hhi' Halt'.
  destruct (run_invariant mem src J D Hsrc Hrun) as [Hinv HD].
  pose proof (run_record _ _ _ _ _ _ _ _ _ _ _ Hrun Hok Hlo Hhi Hrec) as Hrun1.
  destruct (run_invariant mem src J1 _ Hsrc Hrun1) as [Hinv1 HD1].
  destruct (valid_record_call_at _ _ _ Hinv Hok) as (q & ra & rb & Hat).
  destruct (valid_record_call_at _ _ _ Hinv1 Hok') as (q1 & ra' & rb' & Hat').
  destruct (record_at J1 _ _ _ _ _ Hat') as [it2 Hrec'].
  pose proof (run_record _ _ _ _ _ _ _ _ _ _ _ Hrun1 Hok' Hlo' Hhi' Hrec') as Hrun2.
  destruct (run_invariant mem src _ _ Hsrc Hrun2) as [Hinv2 HD2].
  (* the offsets and the length of the new sequence *)
  pose proof (call_offsets Hat) as Hoff.
  destruct (call_to_ptrdiff Hat) as [Hl Hh].
  rewrite Hl in Hlo. rewrite Hh in Hhi. injection Hlo as Hlo. injection Hhi as Hhi.
  destruct (record_splice_at _ _ _ _ _ _ Hat) as (_ & Hss & _).
  pose proof (length_spell mem alt (at_alt _ _ _ _ _ _ Hat)) as Hla.
  destruct Hinv as (q0 & Hc & Hs & Hq).
  pose proof (chain_functional _ _ _ _ (at_chain _ _ _ _ _ _ Hat) Hc) as ->.
  pose proof (chain_length mem _ _ _ Hc) as HlenD. rewrite HD in HlenD.
  (* the derived sequence is restored *)
  assert (spelled mem (recorded (_journal J1) bp' alt' ra' rb') = D) as Hback.
  { simpl in HD2. rewrite HD2, Halt', Hss, <- Hla.
    rewrite (derived_spelled mem J Hs), HD.
    apply apply_edit_undo; lia. }
  destruct Hinv2 as (q2 & Hc2 & Hs2 & Hq2). simpl in Hc2, Hs2.
  pose proof (chain_length mem _ _ _ Hc2) as Hlen2. rewrite Hback in Hlen2.
  eexists _, it2. split; [exact Hrec' |].
  split; [| split; [| split; [| split; [| split]]]].
  - rewrite !derived_spelled by done. simpl. by rewrite Hback, HD.
  - simpl. rewrite (sentinel_position_chain _ _ Hc2 Hs2).
    rewrite (sentinel_position_chain _ _ Hc Hs). lia.
  - simpl. unfold Journal.record in Hrec.
    destruct (record_inline (_journal J) bp alt) as [[j1 i1]|]; [|done].
    simpl in Hrec. by injection Hrec as <- _.
  - simpl. apply (check_journal_invariants_chain _ q2); [done | | done].
    by apply ends_with_sentinel_nonempty.
  - simpl. destruct (recorded (_journal J1) bp' alt' ra' rb') as [|first l].
    + by apply ends_with_sentinel_nonempty in Hs2.
    + exists first. split; [done |]. by inversion Hc2.
  - simpl. intros i r next Hr Hn.
    rewrite (chain_adjacent _ _ _ _ _ _ Hc2 Hr Hn).
    destruct (chain_lookup _ _ _ _ _ Hc2 Hr) as (_ & Hv & _).
    destruct (chain_lookup_bounds _ _ _ _ _ Hc2 Hr).
    rewrite seq_size_small by lia. done.
Qed.

Lemma substitution_undo_restores_journal_witness :
  ∃ J2 it2,
    Journal.record J_sub bp_undo alt_cg = Some (J2, it2)
    ∧ derived mem_ex J2 = derived mem_ex J_acgt
    ∧ sentinel_position (_journal J2) = sentinel_position (_journal J_acgt)
    ∧ _source J2 = _source J_acgt
    ∧ check_journal_invariants (_journal J2) = true
    ∧ (∃ first, _journal J2 !! 0%nat = Some first ∧ position first = 0)
    ∧ (∀ i r next, _journal J2 !! i = Some r → _journal J2 !! S i = Some next →
                   position next = position r + seq_size (sequence r)).
Proof.
  apply (substitution_undo_restores_journal mem_ex src_acgt J_acgt _
           bp_sub alt_xy 1 3 J_sub 1%nat bp_undo alt_cg
           eq_refl (run_new _ _ _) eq_refl eq_refl eq_refl eq_refl eq_refl
           eq_refl eq_refl eq_refl eq_refl eq_refl).
Defined.

(** C10. Equality of records is by identity. Two records compare equal
    exactly when their positions are equal, their segments begin at the same
    place in memory and have the same size; for well-formed segments that is
    exactly when positions and memory ranges coincide. Two records whose
    segments spell the same symbols but begin at different places in memory
    compare unequal. *)
Theorem record_equality_is_identity {A} (mem : Z → A) lhs rhs :
  (record_eqb lhs rhs = true
   ↔ position lhs = position rhs
     ∧ seq_begin (sequence lhs) = seq_begin (sequence rhs)
     ∧ seq_size (sequence lhs) = seq_size (sequence rhs))
  ∧ (valid_source (sequence lhs) = true → valid_source (sequence rhs) = true →
     (record_eqb lhs rhs = true ↔ lhs = rhs))
  ∧ (spell mem (sequence lhs) = spell mem (sequence rhs) →
     seq_begin (sequence lhs) ≠ seq_begin (sequence rhs) →
     record_eqb lhs rhs = false).
Proof.
  assert (record_eqb lhs rhs = true
          ↔ position lhs = position rhs
            ∧ seq_begin (sequence lhs) = seq_begin (sequence rhs)
            ∧ seq_size (sequence lhs) = seq_size (sequence rhs)) as Hiff.
  { unfold record_eqb. rewrite !andb_true_iff, !Z.eqb_eq. tauto. }
  split; [done |]. split.
  - intros Hl Hr. rewrite Hiff.
    unfold valid_source in Hl, Hr.
    apply andb_true_iff in Hl as [Hl1 Hl2]. apply andb_true_iff in Hr as [Hr1 Hr2].
    rewrite !seq_size_small by lia.
    destruct lhs as [p1 [b1 e1]], rhs as [p2 [b2 e2]]. simpl in *. split.
    + intros (-> & -> & He). do 2 f_equal. lia.
    + by intros [= -> -> ->].
  - intros _ Hne. apply not_true_is_false. intros He.
    apply Hiff in He as (_ & Hb & _). done.
Qed.

Lemma record_equality_is_identity_witness :
  spell mem_ex (sequence r_cg_source) = spell mem_ex (sequence r_cg_copy)
  ∧ record_eqb r_cg_source r_cg_copy = false.
Proof.
  split; [reflexivity |].
  apply (proj2 (proj2 (record_equality_is_identity mem_ex r_cg_source r_cg_copy)));
    [reflexivity | discriminate].
Defined.

(* ================================================================== *)
(** * Further properties of the journal *)

(** ** Binary search *)

Lemma bound_search_step left (j : journal_type) fuel first len :
  Journal.bound_search left j (S fuel) first len
  = if (len =? 0)%nat then first
    else match j !! (first + len / 2)%nat with
         | Some r =>
             if left r then Journal.bound_search left j fuel first (len / 2)
             else Journal.bound_search left j fuel (S (first + len / 2))
                    (len - len / 2 - 1)
         | None => first
         end.
Proof. reflexivity. Qed.

(** On records partitioned by [left], the search returns the partition
    point. *)
Lemma bound_search_partition left (j : journal_type) fuel first len :
  (len ≤ fuel)%nat → (first + len ≤ length j)%nat →
  (∀ i i' r r', (first ≤ i ≤ i')%nat → (i' < first + len)%nat →
                j !! i = Some r → j !! i' = Some r' →
                left r = true → left r' = true) →
  (first ≤ Journal.bound_search left j fuel first len ≤ first + len)%nat
  ∧ (∀ i r, (first ≤ i < Journal.bound_search left j fuel first len)%nat →
            j !! i = Some r → left r = false)
  ∧ (∀ i r, (Journal.bound_search left j fuel first len ≤ i < first + len)%nat →
            j !! i = Some r → left r = true).
Proof.
  revert first len. induction fuel as [|fuel IH]; intros first len Hfuel Hlen Hmono.
  - simpl. repeat split; intros; lia.
  - rewrite bound_search_step. destruct (Nat.eqb_spec len 0) as [-> | Hpos].
    { repeat split; intros; lia. }
    assert (len / 2 < len)%nat as Hhalf by (apply Nat.div_lt; lia).
    destruct (lookup_lt_is_Some_2 j (first + len / 2)) as [m Hm]; [lia |].
    rewrite Hm. destruct (left m) eqn:Hleft.
    + destruct (IH first (len / 2)%nat) as (Hr & Hbefore & Hafter); [lia | lia | |].
      { intros i i' r r' Hi Hi'. apply Hmono; lia. }
      split; [lia |]. split; [done |].
      intros i r Hi Hr'.
      destruct (decide (i < first + len / 2)%nat) as [Hlt | Hge].
      * apply (Hafter i); [lia | done].
      * apply (Hmono (first + len / 2)%nat i m r); [lia | lia | done | done | done].
    + destruct (IH (S (first + len / 2)) (len - len / 2 - 1)%nat)
        as (Hr & Hbefore & Hafter); [lia | lia | |].
      { intros i i' r r' Hi Hi'. apply Hmono; lia. }
      split; [lia |]. split.
      * intros i r Hi Hr'.
        destruct (decide (i ≤ first + len / 2)%nat) as [Hle | Hgt].
        -- destruct (left r) eqn:Hl; [| done].
           rewrite (Hmono i (first + len / 2)%nat r m) in Hleft; (done || lia).
        -- apply (Hbefore i); [lia | done].
      * intros i r Hi Hr'. apply (Hafter i); [lia | done].
Qed.

(** The records of a chain are sorted by position. *)
Lemma chain_sorted p (j : journal_type) q (i i' : nat) r r' :
  chain p j q → (i ≤ i')%nat → j !! i = Some r → j !! i' = Some r' →
  position r ≤ position r'.
Proof.
  intros Hc Hle Hr Hr'. destruct (decide (i = i')) as [-> | Hne].
  - rewrite Hr in Hr'. injection Hr' as ->. lia.
  - assert (i < i')%nat as Hlt by lia.
    pose proof (chain_lookup_lt _ _ _ _ _ _ _ Hc Hr Hr' Hlt).
    destruct (chain_lookup _ _ _ _ _ Hc Hr) as (_ & Hv & _). lia.
Qed.

Lemma end_lt_length (J : inline_sequence_journal) :
  ends_with_sentinel (_journal J) →
  S (Journal.end_ J) = length (_journal J).
Proof.
  unfold Journal.end_. intros (body & s & -> & _).
  rewrite length_app. change (length [s]) with 1%nat. lia.
Qed.

Lemma bound_search_journal left (J : inline_sequence_journal) q res :
  chain 0 (_journal J) q → ends_with_sentinel (_journal J) →
  (∀ r r', position r ≤ position r' → left r = true → left r' = true) →
  res = Journal.bound_search left (_journal J)
          (Journal.end_ J - Journal.begin J) (Journal.begin J)
          (Journal.end_ J - Journal.begin J) →
  (res ≤ Journal.end_ J)%nat
  ∧ (∀ i r, (i < res)%nat → _journal J !! i = Some r → left r = false)
  ∧ (∀ i r, (res ≤ i < Journal.end_ J)%nat → _journal J !! i = Some r → left r = true).
Proof.
  intros Hc Hs Hmono Hres. pose proof (end_lt_length J Hs) as Hend.
  unfold Journal.begin in Hres. rewrite Nat.sub_0_r in Hres.
  destruct (bound_search_partition left (_journal J) (Journal.end_ J) 0 (Journal.end_ J))
    as (Hr & Hbefore & Hafter); [lia | lia | |].
  { intros i i' r r' Hi Hi' Hr Hr'. apply Hmono.
    apply (chain_sorted _ _ _ i i' _ _ Hc); (done || lia). }
  rewrite <- Hres in Hr, Hbefore, Hafter.
  split; [lia |]. split.
  - intros i r Hi. apply Hbefore. lia.
  - intros i r Hi. apply Hafter. lia.
Qed.

(** X1. On a journal reached by valid calls [upper_bound(key)] returns the
    partition point of the range [[begin(), end())]: every record before it
    starts at or before [key], every record from it on starts after [key]. *)
Theorem upper_bound_partitions_journal {A} (mem : Z → A) src J D key :
  valid_source src = true → run mem src J D →
  (Journal.upper_bound J key ≤ Journal.end_ J)%nat
  ∧ (∀ i r, (i < Journal.upper_bound J key)%nat → _journal J !! i = Some r →
            position r ≤ key)
  ∧ (∀ i r, (Journal.upper_bound J key ≤ i < Journal.end_ J)%nat →
            _journal J !! i = Some r → key < position r).
Proof.
  intros Hsrc Hrun.
  destruct (run_invariant mem src J D Hsrc Hrun) as [(q & Hc & Hs & Hq) _].
  destruct (bound_search_journal (λ r, key <? position r) J q
              (Journal.upper_bound J key) Hc Hs)
    as (Hr & Hbefore & Hafter); [| done |].
  { intros r r' Hle H. apply Z.ltb_lt in H. apply Z.ltb_lt. lia. }
  split; [exact Hr |]. split.
  - intros i r Hi Hl. specialize (Hbefore i r Hi Hl). simpl in Hbefore.
    apply Z.ltb_ge in Hbefore. lia.
  - intros i r Hi Hl. specialize (Hafter i r Hi Hl). simpl in Hafter.
    by apply Z.ltb_lt in Hafter.
Qed.

Lemma upper_bound_partitions_journal_witness :
  (Journal.upper_bound J_sub 2 ≤ Journal.end_ J_sub)%nat
  ∧ (∀ i r, (i < Journal.upper_bound J_sub 2)%nat → _journal J_sub !! i = Some r →
            position r ≤ 2)
  ∧ (∀ i r, (Journal.upper_bound J_sub 2 ≤ i < Journal.end_ J_sub)%nat →
            _journal J_sub !! i = Some r → 2 < position r).
Proof.
  apply (upper_bound_partitions_journal mem_ex src_acgt J_sub _ 2 eq_refl run_sub).
Defined.

(** X2. On a journal reached by valid calls [lower_bound(key)] returns the
    partition point of the range [[begin(), end())]: every record before it
    starts before [key], every record from it on starts at or after [key]. *)
Theorem lower_bound_partitions_journal {A} (mem : Z → A) src J D key :
  valid_source src = true → run mem src J D →
  (Journal.lower_bound J key ≤ Journal.end_ J)%nat
  ∧ (∀ i r, (i < Journal.lower_bound J key)%nat → _journal J !! i = Some r →
            position r < key)
  ∧ (∀ i r, (Journal.lower_bound J key ≤ i < Journal.end_ J)%nat →
            _journal J !! i = Some r → key ≤ position r).
Proof.
  intros Hsrc Hrun.
  destruct (run_invariant mem src J D Hsrc Hrun) as [(q & Hc & Hs & Hq) _].
  destruct (bound_search_journal (λ r, negb (position r <? key)) J q
              (Journal.lower_bound J key) Hc Hs)
    as (Hr & Hbefore & Hafter); [| done |].
  { intros r r' Hle H. apply negb_true_iff, Z.ltb_ge in H.
    apply negb_true_iff, Z.ltb_ge. lia. }
  split; [exact Hr |]. split.
  - intros i r Hi Hl. specialize (Hbefore i r Hi Hl). simpl in Hbefore.
    apply negb_false_iff, Z.ltb_lt in Hbefore. lia.
  - intros i r Hi Hl. specialize (Hafter i r Hi Hl). simpl in Hafter.
    apply negb_true_iff, Z.ltb_ge in Hafter. lia.
Qed.

Lemma lower_bound_partitions_journal_witness :
  (Journal.lower_bound J_sub 2 ≤ Journal.end_ J_sub)%nat
  ∧ (∀ i r, (i < Journal.lower_bound J_sub 2)%nat → _journal J_sub !! i = Some r →
            position r < 2)
  ∧ (∀ i r, (Journal.lower_bound J_sub 2 ≤ i < Journal.end_ J_sub)%nat →
            _journal J_sub !! i = Some r → 2 ≤ position r).
Proof.
  apply (lower_bound_partitions_journal mem_ex src_acgt J_sub _ 2 eq_refl run_sub).
Defined.

(** The symbol of the derived sequence at a linear offset inside a record. *)
Lemma spelled_lookup {A} (mem : Z → A) (j : journal_type) q (i : nat) r key :
  chain 0 j q → j !! i = Some r →
  position r ≤ key < position r + (seq_end (sequence r) - seq_begin (sequence r)) →
  spelled mem j !! Z.to_nat key
  = Some (mem (seq_begin (sequence r) + (key - position r))).
Proof.
  intros Hc Hr Hk.
  destruct (chain_lookup_bounds _ _ _ _ _ Hc Hr) as [Hp _].
  set (s := seq_begin (sequence r) + (key - position r)).
  assert (seq_begin (sequence r) ≤ s ≤ seq_end (sequence r)) as Hs by (unfold s; lia).
  destruct (spelled_cut mem j q i r s Hc Hr Hs) as [_ Hdrop].
  assert (linear_offset r s = key) as Hoff by (unfold linear_offset, s; lia).
  rewrite Hoff in Hdrop.
  replace (Z.to_nat key) with (Z.to_nat key + 0)%nat by lia.
  rewrite <- lookup_drop, Hdrop. unfold spell. simpl.
  rewrite seqZ_cons by (unfold s; lia). done.
Qed.

(** X3. On a journal reached by valid calls and for a key inside the
    derived sequence, the record before [upper_bound(key)] is the entry that
    contains the key: it starts at or before the key and ends after it, and
    the symbol of the derived sequence at the key is the symbol of that
    record's segment at the offset [key - position]. *)
Theorem upper_bound_locates_key {A} (mem : Z → A) src J D key :
  valid_source src = true → run mem src J D →
  0 ≤ key < Z.of_nat (length (derived mem J)) →
  ∃ r, (1 ≤ Journal.upper_bound J key ≤ Journal.end_ J)%nat
       ∧ _journal J !! (Journal.upper_bound J key - 1)%nat = Some r
       ∧ position r ≤ key < position r + seq_size (sequence r)
       ∧ derived mem J !! Z.to_nat key
         = Some (mem (seq_begin (sequence r) + (key - position r))).
Proof.
  intros Hsrc Hrun Hkey.
  destruct (run_invariant mem src J D Hsrc Hrun) as [(q & Hc & Hs & Hq) _].
  destruct (bound_search_journal (λ r, key <? position r) J q
              (Journal.upper_bound J key) Hc Hs)
    as (Hu & Hbefore & Hafter); [| done |].
  { intros r r' Hle H. apply Z.ltb_lt in H. apply Z.ltb_lt. lia. }
  pose proof (end_lt_length J Hs) as Hend.
  rewrite (derived_spelled mem J Hs) in Hkey |- *.
  rewrite (chain_length mem _ _ _ Hc) in Hkey.
  pose proof (sentinel_position_chain _ _ Hc Hs) as Hsp.
  unfold sentinel_position in Hsp. rewrite last_lookup in Hsp.
  replace (Init.Nat.pred (length (_journal J))) with (Journal.end_ J) in Hsp by lia.
  destruct (lookup_lt_is_Some_2 (_journal J) (Journal.end_ J)) as [s Hsent]; [lia |].
  rewrite Hsent in Hsp. simpl in Hsp.
  set (u := Journal.upper_bound J key) in *.
  (* the first record starts at 0, so the partition point is not the begin *)
  assert (1 ≤ u)%nat as Hu1.
  { destruct (decide (u = 0)%nat) as [Hu0 | Hne]; [| lia].
    destruct (lookup_lt_is_Some_2 (_journal J) 0) as [r0 Hr0]; [lia |].
    destruct (chain_lookup _ _ _ _ _ Hc Hr0) as (Hpre & _ & _).
    rewrite take_0 in Hpre. inversion Hpre as [p Hp0 |]; subst.
    destruct (decide (0 < Journal.end_ J)%nat) as [Hpos | Hzero].
    - specialize (Hafter 0%nat r0). simpl in Hafter.
      rewrite Hu0 in Hafter. specialize (Hafter ltac:(lia) Hr0).
      apply Z.ltb_lt in Hafter. lia.
    - assert (Journal.end_ J = 0)%nat as He by lia.
      rewrite He in Hsent. rewrite Hr0 in Hsent. injection Hsent as ->. lia. }
  destruct (lookup_lt_is_Some_2 (_journal J) (u - 1)) as [r Hr]; [lia |].
  destruct (lookup_lt_is_Some_2 (_journal J) u) as [next Hnext]; [lia |].
  assert (_journal J !! S (u - 1) = Some next) as Hnext'
    by (rewrite <- Hnext; f_equal; lia).
  pose proof (chain_adjacent _ _ _ _ _ _ Hc Hr Hnext') as Hadj.
  destruct (chain_lookup _ _ _ _ _ Hc Hr) as (_ & Hv & _).
  destruct (chain_lookup_bounds _ _ _ _ _ Hc Hr) as [Hp0 Hpq].
  specialize (Hbefore (u - 1)%nat r ltac:(lia) Hr). simpl in Hbefore.
  apply Z.ltb_ge in Hbefore.
  assert (key < position next) as Hlt.
  { destruct (decide (u < Journal.end_ J)%nat) as [Hin | Hout].
    - specialize (Hafter u next ltac:(lia) Hnext). simpl in Hafter.
      by apply Z.ltb_lt in Hafter.
    - assert (u = Journal.end_ J) as Hue by lia.
      rewrite Hue, Hsent in Hnext. injection Hnext as <-. lia. }
  exists r. split; [lia |]. split; [done |].
  rewrite seq_size_small by lia. split; [lia |].
  apply (spelled_lookup mem _ q (u - 1)%nat); [done | done | lia].
Qed.

Lemma upper_bound_locates_key_witness :
  ∃ r, (1 ≤ Journal.upper_bound J_sub 2 ≤ Journal.end_ J_sub)%nat
       ∧ _journal J_sub !! (Journal.upper_bound J_sub 2 - 1)%nat = Some r
       ∧ position r ≤ 2 < position r + seq_size (sequence r)
       ∧ derived mem_ex J_sub !! Z.to_nat 2
         = Some (mem_ex (seq_begin (sequence r) + (2 - position r))).
Proof.
  apply (upper_bound_locates_key mem_ex src_acgt J_sub _ 2 eq_refl run_sub).
  vm_compute. split; [discriminate | reflexivity].
Defined.

(** ** The order of the records *)

(** X5. The journal is a sorted vector: in a journal reached by valid calls
    a record never compares greater, by [operator<=>] of [record_impl], than a
    record after it, and compares less when its own segment is not empty. *)
Theorem journal_sorted_by_record_order {A} (mem : Z → A) src J D (i i' : nat) r r' :
  valid_source src = true → run mem src J D →
  (i < i')%nat → _journal J !! i = Some r → _journal J !! i' = Some r' →
  record_compare r r' ≠ Gt
  ∧ (seq_empty (sequence r) = false → record_compare r r' = Lt).
Proof.
  intros Hsrc Hrun Hlt Hr Hr'.
  destruct (run_invariant mem src J D Hsrc Hrun) as [(q & Hc & Hs & Hq) _].
  pose proof (chain_lookup_lt _ _ _ _ _ _ _ Hc Hr Hr' Hlt) as Hle.
  destruct (chain_lookup _ _ _ _ _ Hc Hr) as (_ & Hv & _).
  unfold record_compare, seq_empty. split.
  - apply Z.compare_le_iff. lia.
  - intros He. apply Z.eqb_neq in He. apply Z.compare_lt_iff. lia.
Qed.

Lemma journal_sorted_by_record_order_witness :
  record_compare (mk_record 1 alt_xy) (mk_record 3 (subrange 103 104)) ≠ Gt
  ∧ (seq_empty (sequence (mk_record 1 alt_xy)) = false →
     record_compare (mk_record 1 alt_xy) (mk_record 3 (subrange 103 104)) = Lt).
Proof.
  apply (journal_sorted_by_record_order mem_ex src_acgt J_sub _ 1%nat 2%nat _ _
           eq_refl run_sub); [lia | reflexivity | reflexivity].
Defined.

(** ** Splitting a record *)

(** X6. [split_at] cuts the record of a valid breakend of a reachable
    journal in two: the prefix keeps the record's position and covers the
    segment up to the breakend, the suffix starts at the breakend's linear
    offset and covers the rest; together they spell the segment. The prefix
    is empty exactly when the breakend is at the begin of the segment, the
    suffix exactly when it is at the end. *)
Theorem split_at_partitions_record {A} (mem : Z → A) src J D b :
  valid_source src = true → run mem src J D →
  valid_breakend (_journal J) b = true →
  ∃ r prefix suffix,
    _journal J !! _journal_it b = Some r
    ∧ split_at (_journal J) b = Some (prefix, suffix)
    ∧ position prefix = position r
    ∧ to_ptrdiff (_journal J) b = Some (position suffix)
    ∧ sequence prefix = subrange (seq_begin (sequence r)) (_sequence_it b)
    ∧ sequence suffix = subrange (_sequence_it b) (seq_end (sequence r))
    ∧ spell mem (sequence prefix) ++ spell mem (sequence suffix) = spell mem (sequence r)
    ∧ (seq_empty (sequence prefix) = true ↔ _sequence_it b = seq_begin (sequence r))
    ∧ (seq_empty (sequence suffix) = true ↔ _sequence_it b = seq_end (sequence r)).
Proof.
  intros Hsrc Hrun Hv.
  destruct (run_invariant mem src J D Hsrc Hrun) as [(q & Hc & Hs & Hq) _].
  apply valid_breakend_inv in Hv as (r & Hr & Hb).
  destruct (chain_lookup_bounds _ _ _ _ _ Hc Hr) as [Hp0 Hpq].
  exists r. unfold split_at, base. rewrite Hr. simpl.
  rewrite !get_breakpoint_slice_range. eexists _, _.
  split; [done |]. split; [done |]. simpl. split; [done |].
  split.
  { rewrite (to_ptrdiff_valid _ q b r) by done. unfold distance.
    rewrite cast_size_small by lia. done. }
  split; [done |]. split; [done |]. split.
  { destruct r as [p [sb se]]. simpl in *. symmetry. by apply spell_split. }
  unfold seq_empty. simpl. rewrite !Z.eqb_eq. split; split; lia.
Qed.

Lemma split_at_partitions_record_witness :
  ∃ r prefix suffix,
    _journal J_acgt !! _journal_it (breakend 0 101) = Some r
    ∧ split_at (_journal J_acgt) (breakend 0 101) = Some (prefix, suffix)
    ∧ position prefix = position r
    ∧ to_ptrdiff (_journal J_acgt) (breakend 0 101) = Some (position suffix)
    ∧ sequence prefix = subrange (seq_begin (sequence r)) (_sequence_it (breakend 0 101))
    ∧ sequence suffix = subrange (_sequence_it (breakend 0 101)) (seq_end (sequence r))
    ∧ spell mem_ex (sequence prefix) ++ spell mem_ex (sequence suffix)
      = spell mem_ex (sequence r)
    ∧ (seq_empty (sequence prefix) = true
       ↔ _sequence_it (breakend 0 101) = seq_begin (sequence r))
    ∧ (seq_empty (sequence suffix) = true
       ↔ _sequence_it (breakend 0 101) = seq_end (sequence r)).
Proof.
  apply (split_at_partitions_record mem_ex src_acgt J_acgt _ (breakend 0 101)
           eq_refl (run_new _ _ _) eq_refl).
Defined.

(** ** The iterator [record] returns *)

(** The iterator returned at a valid call is one past the low prefix when
    that is kept, the low anchor itself otherwise. *)
Lemma record_inline_at_iterator j q bp alt ra rb :
  call_at j q bp alt ra rb →
  record_inline j bp alt
  = Some (recorded j bp alt ra rb,
          (_journal_it (low_breakend bp)
           + (if decide (seq_begin (sequence ra) = _sequence_it (low_breakend bp))
              then 0 else 1))%nat).
Proof.
  intros Hat. destruct (record_inline_at Hat) as [it Hr]. rewrite Hr.
  do 2 f_equal.
  destruct (record_splice_at _ _ _ _ _ _ Hat) as (Hsp & Hss & _).
  unfold record_inline in Hr. rewrite Hsp in Hr. simpl in Hr.
  injection Hr as _ <-. f_equal. rewrite Hss.
  pose proof (at_alt _ _ _ _ _ _ Hat) as Halt.
  unfold marked_entries.
  destruct (Z.ltb_spec 0 (seq_end alt - seq_begin alt));
    repeat case_decide; simpl; lia.
Qed.

Lemma lookup_recorded_entries (j : journal_type) bp alt ra rb (k : nat) :
  (_journal_it (low_breakend bp) < length j)%nat →
  recorded j bp alt ra rb !! (_journal_it (low_breakend bp) + k)%nat
  = (marked_entries ra (_sequence_it (low_breakend bp)) alt
     ++ (shift (edit_offset bp alt ra rb)
           <$> (high_suffix_of rb (_sequence_it (high_breakend bp))
                :: drop (S (_journal_it (high_breakend bp))) j))) !! k.
Proof.
  intros Ha. unfold recorded.
  rewrite lookup_app_r by (rewrite length_take; lia).
  f_equal. rewrite length_take. lia.
Qed.

(** X7. The iterator a valid [record] call returns points to the record
    that starts at the linear offset of the low breakend: the record holding
    the new sequence when that is not empty, the remainder of the high
    record after the erased interval when it is. *)
Theorem record_returns_iterator_to_recorded_region {A} (mem : Z → A) src J D bp alt :
  valid_source src = true → run mem src J D →
  valid_record_call (_journal J) bp alt = true →
  ∃ J' it r rb lo,
    Journal.record J bp alt = Some (J', it)
    ∧ to_ptrdiff (_journal J) (low_breakend bp) = Some lo
    ∧ _journal J !! _journal_it (high_breakend bp) = Some rb
    ∧ _journal J' !! it = Some r
    ∧ position r = lo
    ∧ sequence r
      = (if seq_empty alt
         then subrange (_sequence_it (high_breakend bp)) (seq_end (sequence rb))
         else alt).
Proof.
  intros Hsrc Hrun Hok.
  destruct (run_invariant mem src J D Hsrc Hrun) as [Hinv _].
  destruct (valid_record_call_at _ _ _ Hinv Hok) as (q & ra & rb & Hat).
  pose proof (record_inline_at_iterator _ _ _ _ _ _ Hat) as Hr.
  destruct (call_to_ptrdiff Hat) as [Hl _].
  pose proof (lookup_lt_Some _ _ _ (at_low _ _ _ _ _ _ Hat)) as Hal.
  pose proof (at_alt _ _ _ _ _ _ Hat) as Halt.
  assert (∃ r,
            recorded (_journal J) bp alt ra rb
              !! (_journal_it (low_breakend bp)
                  + (if decide (seq_begin (sequence ra) = _sequence_it (low_breakend bp))
                     then 0 else 1))%nat = Some r
            ∧ position r = linear_offset ra (_sequence_it (low_breakend bp))
            ∧ sequence r
              = (if seq_empty alt
                 then subrange (_sequence_it (high_breakend bp)) (seq_end (sequence rb))
                 else alt)) as (r & Hlook & Hpos & Hseq).
  { rewrite lookup_recorded_entries by done.
    unfold marked_entries, seq_empty, edit_offset, linear_offset.
    destruct (Z.eqb_spec (seq_begin alt) (seq_end alt));
      repeat case_decide; try lia; simpl;
      (eexists; split; [reflexivity |]; simpl; unfold linear_offset;
       split; [lia | reflexivity]). }
  exists (mk_journal (_source J) (recorded (_journal J) bp alt ra rb)).
  eexists _, r, rb, _.
  split; [unfold Journal.record; rewrite Hr; simpl; reflexivity |].
  split; [exact Hl |]. split; [exact (at_high _ _ _ _ _ _ Hat) |]. done.
Qed.

Lemma record_returns_iterator_to_recorded_region_witness :
  ∃ J' it r rb lo,
    Journal.record J_acgt bp_sub alt_xy = Some (J', it)
    ∧ to_ptrdiff (_journal J_acgt) (low_breakend bp_sub) = Some lo
    ∧ _journal J_acgt !! _journal_it (high_breakend bp_sub) = Some rb
    ∧ _journal J' !! it = Some r
    ∧ position r = lo
    ∧ sequence r
      = (if seq_empty alt_xy
         then subrange (_sequence_it (high_breakend bp_sub)) (seq_end (sequence rb))
         else alt_xy).
Proof.
  apply (record_returns_iterator_to_recorded_region mem_ex src_acgt J_acgt _
           bp_sub alt_xy eq_refl (run_new _ _ _) eq_refl).
Defined.

(** ** Sizes *)

(** X8. A valid [record] call changes the length of the derived sequence,
    and the position of the sentinel with it, by the size of the new sequence
    minus the span of the breakpoint. *)
Theorem record_changes_length_by_offset {A} (mem : Z → A) src J D bp alt :
  valid_source src = true → run mem src J D →
  valid_record_call (_journal J) bp alt = true →
  ∃ J' it d,
    Journal.record J bp alt = Some (J', it)
    ∧ breakend_span (_journal J) bp = Some d
    ∧ 0 ≤ d ≤ Z.of_nat (length (derived mem J))
    ∧ Z.of_nat (length (derived mem J'))
      = Z.of_nat (length (derived mem J)) + seq_ssize alt - d
    ∧ sentinel_position (_journal J')
      = sentinel_position (_journal J) + seq_ssize alt - d.
Proof.
  intros Hsrc Hrun Hok.
  destruct (run_invariant mem src J D Hsrc Hrun) as [Hinv _].
  destruct (valid_record_call_at _ _ _ Hinv Hok) as (q & ra & rb & Hat).
  destruct (record_at J _ _ _ _ _ Hat) as [it Hr].
  destruct (record_splice_at _ _ _ _ _ _ Hat) as (_ & Hss & Hd).
  pose proof (call_offsets Hat) as Hoff.
  destruct Hinv as (q0 & Hc & Hs & Hq).
  pose proof (chain_functional _ _ _ _ (at_chain _ _ _ _ _ _ Hat) Hc) as ->.
  pose proof (chain_recorded Hat) as Hc'.
  pose proof (sentinel_recorded Hat Hs) as Hs'.
  eexists _, it, _. split; [exact Hr |]. split; [exact Hd |].
  rewrite !derived_spelled by done. simpl.
  rewrite (chain_length mem _ _ _ Hc), (chain_length mem _ _ _ Hc').
  rewrite (sentinel_position_chain _ _ Hc Hs), (sentinel_position_chain _ _ Hc' Hs').
  unfold edit_offset. rewrite Hss. repeat split; lia.
Qed.

Lemma record_changes_length_by_offset_witness :
  ∃ J' it d,
    Journal.record J_acgt bp_sub alt_x = Some (J', it)
    ∧ breakend_span (_journal J_acgt) bp_sub = Some d
    ∧ 0 ≤ d ≤ Z.of_nat (length (derived mem_ex J_acgt))
    ∧ Z.of_nat (length (derived mem_ex J'))
      = Z.of_nat (length (derived mem_ex J_acgt)) + seq_ssize alt_x - d
    ∧ sentinel_position (_journal J')
      = sentinel_position (_journal J_acgt) + seq_ssize alt_x - d.
Proof.
  apply (record_changes_length_by_offset mem_ex src_acgt J_acgt _ bp_sub alt_x
           eq_refl (run_new _ _ _) eq_refl).
Defined.



(** ** Rewriting positions modulo the word size *)

Lemma cast_size_round_trip p o : 0 ≤ p < 2 ^ 64 → cast_size (cast_size (p + o) + - o) = p.
Proof.
  intros Hp. unfold cast_size. rewrite Zplus_mod_idemp_l.
  replace (p + o + - o) with p by lia. by apply Z.mod_small.
Qed.

(** X10. [update_positions_of_remaining_entries] computes in [size_type]:
    adding an offset to the records from an iterator on and then adding the
    negated offset from the same iterator restores the journal, whatever the
    offset, also when a position wraps around in between. *)
Theorem update_positions_round_trip (j : journal_type) it o :
  positions_in_size_type j = true →
  update_positions_of_remaining_entries
    (update_positions_of_remaining_entries j it o) it (- o) = j
  ∧ length (update_positions_of_remaining_entries j it o) = length j
  ∧ take it (update_positions_of_remaining_entries j it o) = take it j.
Proof.
  intros Hall.
  assert (∀ i r, j !! i = Some r → 0 ≤ position r < 2 ^ 64) as Hpos.
  { intros i r Hi. unfold positions_in_size_type in Hall.
    rewrite forallb_forall in Hall.
    specialize (Hall r). rewrite <- list_elem_of_In in Hall.
    specialize (Hall (list_elem_of_lookup_2 _ _ _ Hi)).
    apply andb_true_iff in Hall as [H1 H2]. lia. }
  unfold update_positions_of_remaining_entries.
  destruct (Z.eqb_spec o 0) as [-> | Ho]; [done |].
  destruct (Z.eqb_spec (- o) 0) as [Hz | _]; [lia |].
  destruct (decide (it ≤ length j)%nat) as [Hle | Hgt].
  - rewrite take_app_length', drop_app_length' by (rewrite length_take; lia).
    split; [| split; [| done]].
    + rewrite <- list_fmap_compose. rewrite <- (take_drop it j) at 3. f_equal.
      rewrite <- (list_fmap_id (drop it j)) at 2. apply list_fmap_ext.
      intros i [p sq] Hi. simpl. f_equal.
      apply cast_size_round_trip.
      rewrite lookup_drop in Hi. apply (Hpos _ _ Hi).
    + rewrite length_app, length_fmap, length_take, length_drop. lia.
  - rewrite (drop_ge j) by lia. rewrite (take_ge j) by lia. simpl.
    rewrite app_nil_r. rewrite (drop_ge j) by lia. rewrite (take_ge j) by lia.
    simpl. by rewrite app_nil_r.
Qed.

Lemma update_positions_round_trip_witness :
  update_positions_of_remaining_entries
    (update_positions_of_remaining_entries (_journal J_sub) 1 (- 3)) 1 (- - 3)
  = _journal J_sub
  ∧ length (update_positions_of_remaining_entries (_journal J_sub) 1 (- 3))
    = length (_journal J_sub)
  ∧ take 1 (update_positions_of_remaining_entries (_journal J_sub) 1 (- 3))
    = take 1 (_journal J_sub).
Proof.
  apply (update_positions_round_trip (_journal J_sub) 1 (- 3) eq_refl).
Defined.

(** ** What [check_journal_invariants] checks *)

Lemma check_adjacent_iff (j : journal_type) :
  check_adjacent j = true
  ↔ ∀ i r next, j !! i = Some r → j !! S i = Some next →
                cast_size (position r + seq_size (sequence r)) = position next.
Proof.
  induction j as [|r l IH]; [done |].
  destruct l as [|next l].
  - split; [| done]. intros _ [|i] r' next' H1 H2; done.
  - change (check_adjacent (r :: next :: l))
      with ((cast_size (position r + seq_size (sequence r)) =? position next)
            && check_adjacent (next :: l)).
    rewrite andb_true_iff, Z.eqb_eq, IH. split.
    + intros [Hhead Htail] [|i] r' next' H1 H2; simpl in H1, H2.
      * by injection H1 as <-; injection H2 as <-.
      * by apply (Htail i).
    + intros H. split.
      * by apply (H 0%nat).
      * intros i r' next' H1 H2. by apply (H (S i)).
Qed.

(** X11. [check_journal_invariants] returns [true] exactly when the vector
    is not empty, its first record is at position 0 and, for every two
    adjacent records, the position of the first plus the size of its segment,
    computed in [size_type], is the position of the second. It looks at
    nothing else: not at the sentinel's segment, not at empty segments. *)
Theorem check_journal_invariants_iff (j : journal_type) :
  check_journal_invariants j = true
  ↔ (∃ first, j !! 0%nat = Some first ∧ position first = 0)
    ∧ (∀ i r next, j !! i = Some r → j !! S i = Some next →
                   cast_size (position r + seq_size (sequence r)) = position next).
Proof.
  unfold check_journal_invariants. destruct j as [|first l].
  - split; [done |]. by intros [(first & H & _) _].
  - rewrite andb_true_iff, Z.eqb_eq, check_adjacent_iff. split.
    + intros [H0 Hadj]. split; [by exists first | done].
    + intros [(first' & Hf & H0) Hadj]. simpl in Hf. injection Hf as <-. done.
Qed.

(** ** Clearing the journal *)

Lemma record_keeps_source J bp alt J' it :
  Journal.record J bp alt = Some (J', it) → _source J' = _source J.
Proof.
  unfold Journal.record. destruct (record_inline (_journal J) bp alt) as [[j i]|]; [|done].
  simpl. by intros [= <- _].
Qed.

Lemma run_keeps_source {A} (mem : Z → A) src J D :
  run mem src J D → _source J = src.
Proof.
  induction 1 as [|J D bp alt J' it lo hi Hrun IH Hok Hlo Hhi Hrec]; [done |].
  by rewrite (record_keeps_source _ _ _ _ _ Hrec).
Qed.

Lemma derived_new {A} (mem : Z → A) src : derived mem (Journal.new src) = spell mem src.
Proof.
  unfold derived, Journal.end_, Journal.begin. simpl.
  rewrite initialize_journal_empty. unfold seq_empty.
  destruct (Z.eqb_spec (seq_begin src) (seq_end src)) as [He | He]; simpl.
  - rewrite spell_empty by lia. done.
  - unfold spelled. simpl. by rewrite app_nil_r.
Qed.

(** X12. [record] never changes the source of the journal, so after any
    sequence of valid calls [clear()] gives back the journal as constructed
    from the source, whose derived sequence spells the source. *)
Theorem clear_restores_initial_journal {A} (mem : Z → A) src J D :
  run mem src J D →
  _source J = src
  ∧ Journal.clear J = Journal.new src
  ∧ derived mem (Journal.clear J) = spell mem src.
Proof.
  intros Hrun. pose proof (run_keeps_source mem src J D Hrun) as Hsrc.
  assert (Journal.clear J = Journal.new src) as Hclear.
  { unfold Journal.clear, Journal.new. by rewrite Hsrc. }
  split; [done |]. split; [done |]. rewrite Hclear. apply derived_new.
Qed.

Lemma clear_restores_initial_journal_witness :
  _source J_sub = src_acgt
  ∧ Journal.clear J_sub = Journal.new src_acgt
  ∧ derived mem_ex (Journal.clear J_sub) = spell mem_ex src_acgt.
Proof.
  apply (clear_restores_initial_journal mem_ex src_acgt J_sub _ run_sub).
Defined.

(** ** The empty journal *)

(** X13. After valid calls whose high breakends are normalised, [empty()]
    holds exactly when the derived sequence has no symbol. The number of
    records is taken to fit [size_type]. *)
Theorem empty_iff_derived_sequence_empty {A} (mem : Z → A) src J D :
  valid_source src = true → run_normal mem src J D →
  Z.of_nat (length (_journal J)) ≤ 2 ^ 64 →
  Journal.empty J = true ↔ derived mem J = [].
Proof.
  intros Hsrc Hrun Hlen.
  pose proof (run_normal_no_empty mem src J D Hsrc Hrun) as Hne.
  pose proof (run_normal_run _ _ _ _ Hrun) as Hrun'.
  destruct (run_invariant mem src J D Hsrc Hrun') as [(q & Hc & Hs & Hq) _].
  rewrite (derived_spelled mem J Hs).
  destruct Hs as (body & s & Hj & Hempty).
  unfold Journal.empty, Journal.size. rewrite Hj in *.
  rewrite length_app in *. change (length [s]) with 1%nat in *.
  rewrite cast_size_small by lia. rewrite Z.eqb_eq.
  rewrite spelled_app, spelled_cons, spelled_nil, (spell_empty mem (sequence s)) by lia.
  rewrite !app_nil_r.
  apply no_empty_segment_snoc in Hne.
  destruct body as [|r body]; [split; [done | simpl; lia] |].
  split; [simpl; lia |].
  intros Hnil. exfalso.
  apply Forall_cons in Hne as [Hr _].
  rewrite spelled_cons in Hnil. apply app_eq_nil in Hnil as [Hnil _].
  pose proof (length_spell mem (sequence r) ltac:(lia)) as Hl.
  rewrite Hnil in Hl. simpl in Hl. lia.
Qed.

Lemma empty_iff_derived_sequence_empty_witness :
  Journal.empty J_sub = true ↔ derived mem_ex J_sub = [].
Proof.
  apply (empty_iff_derived_sequence_empty mem_ex src_acgt J_sub _ eq_refl run_normal_sub).
  vm_compute. discriminate.
Defined.

(** ** Boundary edits *)

(** X14. Erasing everything: on a journal reached by valid calls, the call
    from the begin of the first record to the sentinel with an empty new
    sequence returns [begin()] and leaves the sentinel alone, at position 0;
    the journal is empty and spells nothing. *)
Theorem erase_all_leaves_sentinel {A} (mem : Z → A) src J D r0 s :
  valid_source src = true → run mem src J D →
  _journal J !! 0%nat = Some r0 →
  _journal J !! Journal.end_ J = Some s →
  Journal.record J
    (breakend 0 (seq_begin (sequence r0)),
     breakend (Journal.end_ J) (seq_begin (sequence s)))
    empty_sequence
  = Some (mk_journal src [mk_record 0 (sequence s)], 0%nat)
  ∧ Journal.empty (mk_journal src [mk_record 0 (sequence s)]) = true
  ∧ derived mem (mk_journal src [mk_record 0 (sequence s)]) = [].
Proof.
  intros Hsrc Hrun Hr0 Hsent.
  destruct (run_invariant mem src J D Hsrc Hrun) as [(q & Hc & Hs & Hq) _].
  pose proof (end_lt_length J Hs) as Hend.
  pose proof (run_keeps_source mem src J D Hrun) as Hsource.
  destruct (chain_lookup _ _ _ _ _ Hc Hr0) as (Hpre & Hv0 & _).
  rewrite take_0 in Hpre. inversion Hpre as [p Hp0 |]; subst p.
  destruct (chain_lookup _ _ _ _ _ Hc Hsent) as (_ & Hvs & _).
  set (bp := (breakend 0 (seq_begin (sequence r0)),
              breakend (Journal.end_ J) (seq_begin (sequence s)))).
  assert (call_at (_journal J) q bp empty_sequence r0 s) as Hat.
  { split; simpl; try done; try lia.
    destruct (decide (0 < Journal.end_ J)%nat) as [Hpos | Hzero]; [by left | right].
    assert (Journal.end_ J = 0)%nat as He by lia.
    rewrite He in Hsent. rewrite Hr0 in Hsent. injection Hsent as ->. split; [done | lia]. }
  pose proof (record_inline_at_iterator _ _ _ _ _ _ Hat) as Hr.
  split; [| split; [done |]].
  - unfold Journal.record. rewrite Hr. simpl. rewrite Hsource.
    rewrite decide_True by done. do 3 f_equal.
    unfold recorded, marked_entries. simpl.
    rewrite !decide_True by done. rewrite drop_ge by lia. simpl.
    unfold shift, high_suffix_of, edit_offset, linear_offset. simpl.
    destruct s as [ps [sb se]]. simpl in *. do 2 f_equal. lia.
  - unfold derived, Journal.end_, Journal.begin. done.
Qed.

Lemma erase_all_leaves_sentinel_witness :
  Journal.record J_sub
    (breakend 0 (seq_begin (sequence (mk_record 0 (subrange 100 101)))),
     breakend (Journal.end_ J_sub) (seq_begin (sequence (mk_record 4 empty_sequence))))
    empty_sequence
  = Some (mk_journal src_acgt [mk_record 0 (sequence (mk_record 4 empty_sequence))], 0%nat)
  ∧ Journal.empty
      (mk_journal src_acgt [mk_record 0 (sequence (mk_record 4 empty_sequence))]) = true
  ∧ derived mem_ex
      (mk_journal src_acgt [mk_record 0 (sequence (mk_record 4 empty_sequence))]) = [].
Proof.
  apply (erase_all_leaves_sentinel mem_ex src_acgt J_sub _ _ _ eq_refl run_sub
           eq_refl eq_refl).
Defined.

(** X15. Inserting into the journal of an empty source: the call at the
    sentinel with a non-empty new sequence returns [begin()] and leaves one
    record holding the new sequence, followed by the sentinel at the size of
    the new sequence. *)
Theorem insert_into_empty_journal src alt :
  seq_empty src = true →
  seq_begin alt < seq_end alt → seq_end alt - seq_begin alt < 2 ^ 63 →
  Journal.record (Journal.new src) (breakend 0 0, breakend 0 0) alt
  = Some (mk_journal src [mk_record 0 alt; mk_record (seq_size alt) empty_sequence],
          0%nat).
Proof.
  intros Hempty Hlt Hlen.
  unfold seq_empty in Hempty. apply Z.eqb_eq in Hempty.
  assert (_journal (Journal.new src) = [mk_record 0 empty_sequence]) as Hj.
  { simpl. rewrite initialize_journal_empty. unfold seq_empty, seq_size.
    rewrite (proj2 (Z.eqb_eq _ _) Hempty). do 2 f_equal.
    replace (seq_end src - seq_begin src) with 0 by lia. done. }
  set (bp := (breakend 0 0, breakend 0 0)).
  assert (call_at [mk_record 0 empty_sequence] 0 bp alt
            (mk_record 0 empty_sequence) (mk_record 0 empty_sequence)) as Hat.
  { split; try done; simpl; try lia.
    constructor; simpl; [done | done |]. apply chain_nil_eq. lia. }
  pose proof (record_inline_at_iterator _ _ _ _ _ _ Hat) as Hr.
  unfold Journal.record. rewrite Hj, Hr. simpl. do 3 f_equal.
  unfold recorded, marked_entries. simpl.
  rewrite decide_False by lia.
  unfold shift, high_suffix_of, edit_offset, linear_offset. simpl.
  rewrite seq_size_small by lia. do 3 f_equal. lia.
Qed.

Lemma insert_into_empty_journal_witness :
  Journal.record (Journal.new src_none) (breakend 0 0, breakend 0 0) alt_xy
  = Some (mk_journal src_none
            [mk_record 0 alt_xy; mk_record (seq_size alt_xy) empty_sequence],
          0%nat).
Proof.
  apply (insert_into_empty_journal src_none alt_xy eq_refl); simpl; lia.
Defined.

(** X16. Every valid edit of a reachable journal can be undone, an
    insertion by a deletion and a deletion by an insertion included: the call
    that records the symbols the edit replaced over the interval the new
    sequence occupies returns and restores the derived sequence and the
    position of the sentinel. *)
Theorem edit_undo_restores_derived_sequence {A} (mem : Z → A)
    src J D bp alt lo hi J1 it1 bp' alt' :
  valid_source src = true → run mem src J D →
  valid_record_call (_journal J) bp alt = true →
  to_ptrdiff (_journal J) (low_breakend bp) = Some lo →
  to_ptrdiff (_journal J) (high_breakend bp) = Some hi →
  Journal.record J bp alt = Some (J1, it1) →
  valid_record_call (_journal J1) bp' alt' = true →
  to_ptrdiff (_journal J1) (low_breakend bp') = Some lo →
  to_ptrdiff (_journal J1) (high_breakend bp') = Some (lo + seq_ssize alt) →
  spell mem alt' = take (Z.to_nat (hi - lo)) (drop (Z.to_nat lo) (derived mem J)) →
  ∃ J2 it2,
    Journal.record J1 bp' alt' = Some (J2, it2)
    ∧ derived mem J2 = derived mem J
    ∧ sentinel_position (_journal J2) = sentinel_position (_journal J).
Proof.
  intros Hsrc Hrun Hok Hlo Hhi Hrec Hok' Hlo' Hhi' Halt'.
  destruct (run_invariant mem src J D Hsrc Hrun) as [Hinv HD].
  pose proof (run_record _ _ _ _ _ _ _ _ _ _ _ Hrun Hok Hlo Hhi Hrec) as Hrun1.
  destruct (run_invariant mem src J1 _ Hsrc Hrun1) as [Hinv1 HD1].
  destruct (valid_record_call_at _ _ _ Hinv Hok) as (q & ra & rb & Hat).
  destruct (valid_record_call_at _ _ _ Hinv1 Hok') as (q1 & ra' & rb' & Hat').
  destruct (record_at J1 _ _ _ _ _ Hat') as [it2 Hrec'].
  pose proof (run_record _ _ _ _ _ _ _ _ _ _ _ Hrun1 Hok' Hlo' Hhi' Hrec') as Hrun2.
  destruct (run_invariant mem src _ _ Hsrc Hrun2) as [Hinv2 HD2].
  pose proof (call_offsets Hat) as Hoff.
  destruct (call_to_ptrdiff Hat) as [Hl Hh].
  rewrite Hl in Hlo. rewrite Hh in Hhi. injection Hlo as Hlo. injection Hhi as Hhi.
  destruct (record_splice_at _ _ _ _ _ _ Hat) as (_ & Hss & _).
  pose proof (length_spell mem alt (at_alt _ _ _ _ _ _ Hat)) as Hla.
  destruct Hinv as (q0 & Hc & Hs & Hq).
  pose proof (chain_functional _ _ _ _ (at_chain _ _ _ _ _ _ Hat) Hc) as ->.
  pose proof (chain_length mem _ _ _ Hc) as HlenD. rewrite HD in HlenD.
  assert (spelled mem (recorded (_journal J1) bp' alt' ra' rb') = D) as Hback.
  { simpl in HD2. rewrite HD2, Halt', Hss, <- Hla.
    rewrite (derived_spelled mem J Hs), HD.
    apply apply_edit_undo; lia. }
  destruct Hinv2 as (q2 & Hc2 & Hs2 & Hq2). simpl in Hc2, Hs2.
  pose proof (chain_length mem _ _ _ Hc2) as Hlen2. rewrite Hback in Hlen2.
  eexists _, it2. split; [exact Hrec' |]. split.
  - rewrite !derived_spelled by done. simpl. by rewrite Hback, HD.
  - simpl. rewrite (sentinel_position_chain _ _ Hc2 Hs2).
    rewrite (sentinel_position_chain _ _ Hc Hs). lia.
Qed.

Lemma edit_undo_restores_derived_sequence_witness :
  ∃ J2 it2,
    Journal.record J_ins bp_ins_undo empty_sequence = Some (J2, it2)
    ∧ derived mem_ex J2 = derived mem_ex J_acgt
    ∧ sentinel_position (_journal J2) = sentinel_position (_journal J_acgt).
Proof.
  apply (edit_undo_restores_derived_sequence mem_ex src_acgt J_acgt _
           bp_ins alt_xy 2 2 J_ins 1%nat bp_ins_undo empty_sequence
           eq_refl (run_new _ _ _) eq_refl eq_refl eq_refl eq_refl
           eq_refl eq_refl eq_refl eq_refl).
Defined.

(** Without normalised breakends [empty()] says less: erasing "ACGT" up to
    the end of its segment leaves an empty record before the sentinel, and
    the journal spells nothing yet is not [empty()]. *)
Example unnormalised_erase_is_not_empty :
  ∃ J', Journal.record J_acgt (breakend 0 100, breakend 0 104) empty_sequence
        = Some (J', 0%nat)
        ∧ derived mem_ex J' = [] ∧ Journal.empty J' = false.
Proof. eexists. repeat split; reflexivity. Qed.

(** ** The comparison operators *)

(** X17. [operator==] of [record_impl] is an equivalence relation, and
    records that compare equal are equivalent under [operator<=>]. *)
Theorem record_equality_is_equivalence r1 r2 r3 :
  record_eqb r1 r1 = true
  ∧ record_eqb r1 r2 = record_eqb r2 r1
  ∧ (record_eqb r1 r2 = true → record_eqb r2 r3 = true → record_eqb r1 r3 = true)
  ∧ (record_eqb r1 r2 = true → record_compare r1 r2 = Eq).
Proof.
  unfold record_eqb, record_compare. repeat split.
  - by rewrite !Z.eqb_refl.
  - by rewrite (Z.eqb_sym (position r1)), (Z.eqb_sym (seq_begin (sequence r1))),
      (Z.eqb_sym (seq_size (sequence r1))).
  - rewrite !andb_true_iff, !Z.eqb_eq. intros [[-> ->] ->] [[-> ->] ->]. done.
  - rewrite !andb_true_iff, !Z.eqb_eq. intros [[-> _] _]. apply Z.compare_refl.
Qed.

Lemma record_equality_is_equivalence_witness :
  record_eqb r_cg_source r_cg_source = true
  ∧ record_eqb r_cg_source r_cg_copy = record_eqb r_cg_copy r_cg_source
  ∧ (record_eqb r_cg_source r_cg_copy = true → record_eqb r_cg_copy r_cg_source = true →
     record_eqb r_cg_source r_cg_source = true)
  ∧ (record_eqb r_cg_source r_cg_copy = true → record_compare r_cg_source r_cg_copy = Eq).
Proof.
  apply (record_equality_is_equivalence r_cg_source r_cg_copy r_cg_source).
Defined.

(** X18. The defaulted [operator<=>] of [breakend_impl] is a strong total
    order: it yields equality exactly for the same pair of iterators, in
    agreement with [operator==], swapping the operands reverses the result,
    and less-than is transitive. *)
Theorem breakend_compare_is_strong_order b1 b2 b3 :
  (breakend_compare b1 b2 = Eq ↔ b1 = b2)
  ∧ (breakend_eqb b1 b2 = true ↔ breakend_compare b1 b2 = Eq)
  ∧ breakend_compare b2 b1 = CompOpp (breakend_compare b1 b2)
  ∧ (breakend_compare b1 b2 = Lt → breakend_compare b2 b3 = Lt →
     breakend_compare b1 b3 = Lt).
Proof.
  destruct b1 as [i1 s1], b2 as [i2 s2], b3 as [i3 s3].
  unfold breakend_compare, breakend_eqb. simpl.
  assert ((match (i1 ?= i2)%nat with Eq => s1 ?= s2 | c => c end) = Eq
          ↔ breakend i1 s1 = breakend i2 s2) as Heq.
  { destruct (Nat.compare_spec i1 i2) as [-> | Hi | Hi].
    - rewrite Z.compare_eq_iff. split; [by intros -> | by intros [=]].
    - split; [done | intros [=]; lia].
    - split; [done | intros [=]; lia]. }
  split; [exact Heq |]. split; [| split].
  - rewrite Heq, andb_true_iff, Nat.eqb_eq, Z.eqb_eq.
    split; [by intros [-> ->] | by intros [=]].
  - rewrite (Nat.compare_antisym i1 i2), (Z.compare_antisym s1 s2).
    by destruct (i1 ?= i2)%nat.
  - assert (∀ i s i' s',
              (match (i ?= i')%nat with Eq => s ?= s' | c => c end) = Lt
              ↔ (i < i')%nat ∨ (i = i' ∧ s < s')) as Hlt.
    { intros i s i' s'. destruct (Nat.compare_spec i i') as [-> | Hi | Hi].
      - rewrite Z.compare_lt_iff. split; [by right | intros [? | [_ ?]]; [lia | done]].
      - split; [by left | done].
      - split; [done | lia]. }
    rewrite !Hlt. lia.
Qed.

Lemma breakend_compare_is_strong_order_witness :
  (breakend_compare b_end_of_first b_begin_of_second = Eq
   ↔ b_end_of_first = b_begin_of_second)
  ∧ (breakend_eqb b_end_of_first b_begin_of_second = true
     ↔ breakend_compare b_end_of_first b_begin_of_second = Eq)
  ∧ breakend_compare b_begin_of_second b_end_of_first
    = CompOpp (breakend_compare b_end_of_first b_begin_of_second)
  ∧ (breakend_compare b_end_of_first b_begin_of_second = Lt →
     breakend_compare b_begin_of_second (breakend 2 103) = Lt →
     breakend_compare b_end_of_first (breakend 2 103) = Lt).
Proof.
  apply (breakend_compare_is_strong_order b_end_of_first b_begin_of_second (breakend 2 103)).
Defined.
